(** * The debugging bid interceptor (modules/debugging/bidInterceptor.js)

    A shallow embedding of the rule-based bid interceptor: the matcher,
    replacer and PAAPI compilers, response defaulting, the matching engine
    and the [intercept] orchestrator with its timer-driven delivery.

    JavaScript values are a first-order datatype; an object is the list of
    its own enumerable properties in enumeration order (the code depends on
    that order through [Object.keys(..)[0]] and [Object.entries]).  User
    functions and regular expressions are names, interpreted by an
    environment, so that a rule definition stays plain data.  A JavaScript
    exception is the [Throw] case of the [result] type.

    Limits of the model: numbers are rationals (the interceptor stores and
    compares them, it does no arithmetic on them); a user function returns
    or throws but has no other effect; objects have no identity, no
    prototype and no accessors; integer-like keys of an object are kept in
    insertion order. *)

From Stdlib Require Import List String Ascii Bool Arith ZArith QArith Lia.
From Stdlib Require Import Permutation DecimalString.
Import ListNotations.

Set Warnings "-register-all".

Local Close Scope Q_scope.
Local Open Scope string_scope.
Local Open Scope list_scope.

(** ** Values *)

Definition fn := nat.   (* name of a user-supplied function *)
Definition re := nat.   (* name of a regular expression     *)

Inductive value : Type :=
| VUndef
| VNull
| VBool (b : bool)
| VNum (q : Q)
| VStr (s : string)
| VArr (xs : list value)
| VObj (props : list (string * value))
| VFun (f : fn)
| VRegExp (r : re).

Definition fields := list (string * value).

(** ** Exceptions *)

Inductive exn : Type :=
| TypeError                 (* raised by the language itself *)
| UserThrow (v : value).    (* raised by a user-supplied function *)

Inductive result (A : Type) : Type :=
| Ok (a : A)
| Throw (e : exn).

Arguments Ok {A} a.
Arguments Throw {A} e.

Definition bind {A B} (m : result A) (k : A -> result B) : result B :=
  match m with
  | Ok a => k a
  | Throw e => Throw e
  end.

Notation "x <- m ;; k" := (bind m (fun x => k))
  (at level 61, m at next level, right associativity).

Fixpoint mapM {A B} (f : A -> result B) (l : list A) : result (list B) :=
  match l with
  | [] => Ok []
  | a :: l' => b <- f a ;; bs <- mapM f l' ;; Ok (b :: bs)
  end.

(** ** Language primitives *)

Module Js.

(** [typeof] *)
Inductive type_tag := TUndefined | TObject | TBoolean | TNumber | TString | TFunction.

Definition typeof (v : value) : type_tag :=
  match v with
  | VUndef => TUndefined
  | VNull => TObject
  | VBool _ => TBoolean
  | VNum _ => TNumber
  | VStr _ => TString
  | VArr _ | VObj _ | VRegExp _ => TObject
  | VFun _ => TFunction
  end.

Definition is_function (v : value) : bool :=
  match v with VFun _ => true | _ => false end.

Definition is_object_type (v : value) : bool :=
  match typeof v with TObject => true | _ => false end.

Definition isArray (v : value) : bool :=
  match v with VArr _ => true | _ => false end.

(** [v == null] *)
Definition nullish (v : value) : bool :=
  match v with VUndef | VNull => true | _ => false end.

(** ToBoolean *)
Definition truthy (v : value) : bool :=
  match v with
  | VUndef | VNull => false
  | VBool b => b
  | VNum q => negb (Qeq_bool q 0)
  | VStr s => negb (String.eqb s "")
  | VArr _ | VObj _ | VFun _ | VRegExp _ => true
  end.

(** [a ?? b] *)
Definition coalesce (a b : value) : value := if nullish a then b else a.

(** [a || b] *)
Definition or (a b : value) : value := if truthy a then a else b.

(** [cVal === val] for a [val] that is neither an object nor a function
    (the only use in the interceptor); objects compare by identity, which
    a scalar never has. *)
Definition strict_eq (a b : value) : bool :=
  match a, b with
  | VUndef, VUndef => true
  | VNull, VNull => true
  | VBool x, VBool y => Bool.eqb x y
  | VNum x, VNum y => Qeq_bool x y
  | VStr x, VStr y => String.eqb x y
  | _, _ => false
  end.

(** The property key of array index [i]. *)
Definition index_key (i : nat) : string := NilZero.string_of_uint (Nat.to_uint i).

Fixpoint indexed_from {A} (i : nat) (xs : list A) : list (string * A) :=
  match xs with
  | [] => []
  | x :: xs' => (index_key i, x) :: indexed_from (S i) xs'
  end.

Definition chars (s : string) : list value :=
  map (fun c => VStr (String c EmptyString)) (list_ascii_of_string s).

(** Own enumerable string-keyed properties, in enumeration order.
    [None] for [null] and [undefined], which have none to ask for. *)
Definition own_props (v : value) : option fields :=
  match v with
  | VUndef | VNull => None
  | VObj ps => Some ps
  | VArr xs => Some (indexed_from 0 xs)
  | VStr s => Some (indexed_from 0 (chars s))
  | VBool _ | VNum _ | VFun _ | VRegExp _ => Some []
  end.

(** [Object.entries(v)] *)
Definition entries (v : value) : result fields :=
  match own_props v with
  | Some ps => Ok ps
  | None => Throw TypeError
  end.

(** [Object.keys(v)] *)
Definition keys (v : value) : result (list string) :=
  ps <- entries v ;; Ok (map fst ps).

Fixpoint lookup (k : string) (ps : fields) : option value :=
  match ps with
  | [] => None
  | (k', v) :: ps' => if String.eqb k k' then Some v else lookup k ps'
  end.

Definition has_key (k : string) (ps : fields) : bool :=
  match lookup k ps with Some _ => true | None => false end.

Definition length_of (ps : fields) : value := VNum (inject_Z (Z.of_nat (List.length ps))).

(** [v[k]]: own properties, and [length] of arrays and strings.
    Properties inherited from the built-in prototypes are not modelled. *)
Definition get (v : value) (k : string) : result value :=
  match own_props v with
  | None => Throw TypeError
  | Some ps =>
      match lookup k ps with
      | Some x => Ok x
      | None =>
          match v with
          | VArr _ | VStr _ => if String.eqb k "length" then Ok (length_of ps) else Ok VUndef
          | _ => Ok VUndef
          end
      end
  end.

(** [v?.[k]] *)
Definition get_opt (v : value) (k : string) : value :=
  match get v k with
  | Ok x => x
  | Throw _ => VUndef
  end.

(** [o[k] = x] on an object's property list: an existing property keeps
    its place, a new one goes last. *)
Fixpoint set (k : string) (x : value) (ps : fields) : fields :=
  match ps with
  | [] => [(k, x)]
  | (k', v) :: ps' =>
      if String.eqb k k' then (k', x) :: ps' else (k', v) :: set k x ps'
  end.

(** [Object.assign(target, source)] on property lists. *)
Definition assign (target : fields) (source : value) : fields :=
  match own_props source with
  | Some ps => fold_left (fun acc kv => set (fst kv) (snd kv) acc) ps target
  | None => target
  end.

End Js.

(** ** Collaborators that live outside the module *)

(** Modelled from the spec: the media-type constants of src/mediaTypes.js,
    a file outside this development ("the banner type", "the video type");
    the interceptor reads the capabilities under these very property
    names. *)
Definition BANNER : string := "banner".
Definition VIDEO : string := "video".

(** Modelled from the spec: [mergeDeep] of src/utils.js, a file outside
    this development.  "Object base + object override: field-wise merge;
    any other conflict: override replaces base wholesale."
    [mergeValue override base] is the merged value. *)
Fixpoint mergeValue (override base : value) {struct override} : value :=
  match override, base with
  | VObj ops, VObj bps =>
      VObj ((fix each (ops bps : fields) {struct ops} : fields :=
               match ops with
               | [] => bps
               | (k, v) :: rest =>
                   let old := match Js.lookup k bps with Some b => b | None => VUndef end in
                   each rest (Js.set k (mergeValue v old) bps)
               end) ops bps)
  | _, _ => override
  end.

(** [mergeDeep(target, source)] updates the object [target] in place, so a
    [source] that is not an object has nothing to contribute. *)
Definition mergeDeep (target : fields) (source : value) : fields :=
  match mergeValue source (VObj target) with
  | VObj merged => merged
  | _ => target
  end.

(** Modelled from the spec: [deepClone] of src/utils.js, "a deep,
    independent copy".  Values here carry no identity, so the copy of a
    value is that value. *)
Definition deepClone (v : value) : value := v.

(** ** Logging *)

Inductive log_entry : Type :=
| LogError (definition : string) (ruleNo : nat)
    (* Invalid '<definition>' definition for debug bid interceptor (in rule #<ruleNo>) *)
| LogMessage (ruleNo : nat) (delay bid mockResponse mockPaapi : value).
    (* Intercepted bid request (matching rule #<ruleNo>), mocking response in <delay>ms. *)

(** ** A sample environment *)

(** User functions, post-processors, bids and rule sets on which the
    definitions can be evaluated. *)
Module Sample.

(** [0]: [() => 9.99]; [1]: a PAAPI generator; [2]: a function that
    returns nothing; any other: a function that throws. *)
Definition call (f : fn) (args : list value) : result value :=
  match f with
  | 0 => Ok (VNum 9.99)
  | 1 => Ok (VArr [ VObj [("seller", VStr "x")];
                    VObj [("config", VObj [("seller", VStr "y")]); ("igb", VArr [])];
                    VObj [] ])
  | 2 => Ok VUndef
  | _ => Throw (UserThrow (VStr "boom"))
  end.

Definition exec (r : re) (v : value) : bool := false.

(** A banner post-processor in the manner of ./responses.js: it fills in
    the markup unless the response brings its own. *)
Definition bannerResolver (bid : value) (response : fields) : fields :=
  if Js.has_key "ad" response || Js.has_key "adUrl" response
  then response
  else Js.set "ad" (VStr "<html></html>") response.

Definition responseResolvers (mediaType : value) : option (value -> fields -> fields) :=
  if Js.strict_eq mediaType (VStr BANNER) then Some bannerResolver else None.

Definition size (w h : Q) : value := VArr [VNum w; VNum h].

(** [{bidId: 'b1', mediaTypes: {banner: {sizes: [[728, 90]]}}}] *)
Definition bannerBid : value :=
  VObj [("bidId", VStr "b1");
        ("mediaTypes", VObj [("banner", VObj [("sizes", VArr [size 728 90])])])].

(** [{bidId: 'b2'}] *)
Definition plainBid : value := VObj [("bidId", VStr "b2")].

(** [{bidId: 'b3', mediaTypes: {native: {}}}] *)
Definition nativeBid : value :=
  VObj [("bidId", VStr "b3"); ("mediaTypes", VObj [("native", VObj [])])].

(** [{bidId: 'b4', mediaType: 'banner'}] *)
Definition typedBid : value :=
  VObj [("bidId", VStr "b4"); ("mediaType", VStr "banner")].

(** [{bidId: 'b5', mediaTypes: {banner: {sizes: [300, 250]}}}] *)
Definition flatSizesBid : value :=
  VObj [("bidId", VStr "b5");
        ("mediaTypes", VObj [("banner", VObj [("sizes", VArr [VNum 300; VNum 250])])])].

Definition request (bids : list value) : value :=
  VObj [("bidderCode", VStr "mock"); ("bids", VArr bids)].

Definition config (ruleDefs : list value) : value := VObj [("intercept", VArr ruleDefs)].

(** [{when: {}, paapi: 'not-a-list'}] *)
Definition malformedPaapi : value :=
  VObj [("when", VObj []); ("paapi", VStr "not-a-list")].

(** [{when: null}] *)
Definition nullWhen : value := VObj [("when", VNull)].

(** [{when: 7, then: 'oops'}] *)
Definition malformedWhenThen : value :=
  VObj [("when", VNum 7); ("then", VStr "oops")].

(** [{when: {}, then: 'oops'}] *)
Definition malformedThen : value := VObj [("when", VObj []); ("then", VStr "oops")].

(** Rule A, [{when: {bidId: 'b1'}, options: {delay: 100}}], and rule B,
    [{when: {bidId: 'b2'}, options: {delay: 10}}]. *)
Definition ruleA : value :=
  VObj [("when", VObj [("bidId", VStr "b1")]); ("options", VObj [("delay", VNum 100)])].
Definition ruleB : value :=
  VObj [("when", VObj [("bidId", VStr "b2")]); ("options", VObj [("delay", VNum 10)])].


(** [{when: {}, then: {cpm: () => 9.99}}] *)
Definition cpmOverride : value :=
  VObj [("when", VObj []); ("then", VObj [("cpm", VFun 0)])].

(** [{when: {bidId: 'b2'}}] and [{when: {}}] *)
Definition onlyB2 : value := VObj [("when", VObj [("bidId", VStr "b2")])].
Definition catchAll : value := VObj [("when", VObj [])].


(** [{cpm: 1.5, meta: {advertiserDomains: ['example.com']}}] *)
Definition literalThen : value :=
  VObj [("cpm", VNum 1.5);
        ("meta", VObj [("advertiserDomains", VArr [VStr "example.com"])])].

(** [{when: f2}] and [{when: f2, options: {suppressWarnings: true}}] *)
Definition functionWhen : value := VObj [("when", VFun 2)].
Definition quietFunctionWhen : value :=
  VObj [("when", VFun 2); ("options", VObj [("suppressWarnings", VBool true)])].

(** A stand-in for [hasNonSerializableProperty]: the value holds a function
    or a regular expression somewhere. *)
Fixpoint holdsFunction (v : value) : bool :=
  match v with
  | VFun _ | VRegExp _ => true
  | VArr xs => existsb holdsFunction xs
  | VObj ps => existsb (fun kv => holdsFunction (snd kv)) ps
  | VUndef | VNull | VBool _ | VNum _ | VStr _ => false
  end.

(** A stand-in for [deepAccess] on the one path [serializeConfig] asks
    for. *)
Definition deepAccess (v : value) (path : string) : value :=
  if String.eqb path "options.suppressWarnings"
  then Js.get_opt (Js.get_opt v "options") "suppressWarnings"
  else VUndef.

(** [{when: {bidId: 'b2'}, then: f3}], [f3] throwing *)
Definition throwingB : value :=
  VObj [("when", VObj [("bidId", VStr "b2")]); ("then", VFun 3)].

End Sample.

(** ** serializeConfig *)

Section Serialization.

(** [hasNonSerializableProperty(v)] and [deepAccess(v, path)] of
    src/utils.js. *)
Variable hasNonSerializableProperty : value -> bool.
Variable deepAccess : value -> string -> value.

(** [logWarn]: Bid interceptor rule definition #<ruleNo> contains
    non-serializable properties and will be lost after a refresh. *)
Inductive warning : Type :=
| LogWarn (ruleNo : nat) (ruleDef : value).

(** The callback [isSerializable(ruleDef, i)]: its answer and what it
    logs. *)
Definition isSerializable (ruleDef : value) (i : nat) : bool * list warning :=
  let serializable := negb (hasNonSerializableProperty ruleDef) in
  (serializable,
   if negb serializable
      && negb (Js.truthy (deepAccess ruleDef "options.suppressWarnings"))
   then [LogWarn (i + 1) ruleDef]
   else []).

(** [ruleDefs.filter(isSerializable)], from index [i] on. *)
Fixpoint filter_from (i : nat) (ruleDefs : list value) : list value * list warning :=
  match ruleDefs with
  | [] => ([], [])
  | ruleDef :: rest =>
      let (keep, warned) := isSerializable ruleDef i in
      let (kept, warnings) := filter_from (S i) rest in
      (if keep then ruleDef :: kept else kept, warned ++ warnings)
  end.

Definition serializeConfig (ruleDefs : value) : result (list value * list warning) :=
  match ruleDefs with
  | VArr defs => Ok (filter_from 0 defs)
  | _ => Throw TypeError
  end.

End Serialization.

(** ** The interceptor *)

Section Interceptor.

(** What a user-supplied function returns (or throws) on given arguments. *)
Variable call : fn -> list value -> result value.

(** [r.exec(v) != null] for a regular expression [r]. *)
Variable exec : re -> value -> bool.

(** The response post-processors of ./responses.js, looked up by the
    response's media type; a post-processor updates the response. *)
Variable responseResolvers : value -> option (value -> fields -> fields).

(** A compiled rule.  [rule_paapi] is [None] where the source leaves the
    property [undefined]. *)
Record Rule : Type := {
  rule_no : nat;
  rule_match : value -> list value -> result value;
  rule_replace : value -> list value -> result value;
  rule_options : fields;
  rule_paapi : option (list value -> result value)
}.

Definition DEFAULT_RULE_OPTIONS : fields := [("delay", VNum 0)].

(** *** matcher *)

(** One entry [[key, val]] of the object matcher; [recur] is [matches] at
    [val]. *)
Definition matchEntry (recur : value -> list value -> result bool)
    (candidate : value) (args : list value) (key : string) (val : value) : result bool :=
  cVal <- Js.get candidate key ;;
  match val with
  | VRegExp r => Ok (exec r cVal)
  | VFun f => x <- call f (cVal :: args) ;; Ok (Js.truthy x)
  | VNull | VArr _ | VObj _ => recur cVal args
  | VUndef | VBool _ | VNum _ | VStr _ => Ok (Js.strict_eq cVal val)
  end.

(** [matches(candidate, {ref, args})]: every entry of [ref] is evaluated
    ([map]), then the results are conjoined ([every]). *)
Fixpoint matches (ref candidate : value) (args : list value) {struct ref} : result bool :=
  match ref with
  | VUndef | VNull => Throw TypeError
  | VObj ps =>
      (fix each (ps : fields) : result bool :=
         match ps with
         | [] => Ok true
         | (key, val) :: rest =>
             b <- matchEntry (matches val) candidate args key val ;;
             bs <- each rest ;;
             Ok (b && bs)
         end) ps
  | VArr xs =>
      (fix each (i : nat) (xs : list value) : result bool :=
         match xs with
         | [] => Ok true
         | val :: rest =>
             b <- matchEntry (matches val) candidate args (Js.index_key i) val ;;
             bs <- each (S i) rest ;;
             Ok (b && bs)
         end) 0%nat xs
  | VStr s =>
      bs <- mapM (fun kv => cVal <- Js.get candidate (fst kv) ;;
                            Ok (Js.strict_eq cVal (snd kv)))
                 (Js.indexed_from 0 (Js.chars s)) ;;
      Ok (forallb (fun b => b) bs)
  | VBool _ | VNum _ | VFun _ | VRegExp _ => Ok true
  end.

Definition matcher (matchDef : value) (ruleNo : nat)
  : (value -> list value -> result value) * list log_entry :=
  match matchDef with
  | VFun f => (fun candidate args => call f (candidate :: args), [])
  | _ =>
      if negb (Js.is_object_type matchDef)
      then (fun _ _ => Ok (VBool false), [LogError "when" ruleNo])
      else (fun candidate args => b <- matches matchDef candidate args ;; Ok (VBool b), [])
  end.

(** *** responseDefaults *)

Definition field (k : string) (ps : fields) : value :=
  match Js.lookup k ps with Some v => v | None => VUndef end.

Definition baseResponse (bidId : value) : fields :=
  [ ("requestId", bidId);
    ("cpm", VNum 3.5764);
    ("currency", VStr "EUR");
    ("ttl", VNum 360);
    ("creativeId", VStr "mock-creative-id");
    ("netRevenue", VBool false);
    ("meta", VObj []) ].

(** [Object.keys(bid.mediaTypes ?? {})[0] ?? BANNER] *)
Definition inferredMediaType (mediaTypes : value) : value :=
  match Js.own_props (Js.coalesce mediaTypes (VObj [])) with
  | Some ((k, _) :: _) => VStr k
  | _ => VStr BANNER
  end.

(** [bid.mediaTypes?.[kind]?.[sizes]?.[0] ?? fallback] *)
Definition firstSize (mediaTypes : value) (kind sizes : string) (fallback : value) : value :=
  Js.coalesce
    (Js.get_opt (Js.get_opt (Js.get_opt mediaTypes kind) sizes) (Js.index_key 0))
    fallback.

Definition pair_of (w h : Q) : value := VArr [VNum w; VNum h].

Definition responseDefaults (bid : value) : result fields :=
  bidId <- Js.get bid "bidId" ;;
  let response := baseResponse bidId in
  bidMediaType <- Js.get bid "mediaType" ;;
  mediaTypes <- Js.get bid "mediaTypes" ;;
  let response :=
    if negb (Js.truthy bidMediaType)
    then Js.set "mediaType" (inferredMediaType mediaTypes) response
    else response in
  let size :=
    if Js.strict_eq (field "mediaType" response) (VStr BANNER)
    then firstSize mediaTypes "banner" "sizes" (pair_of 300 250)
    else if Js.strict_eq (field "mediaType" response) (VStr VIDEO)
    then firstSize mediaTypes "video" "playerSize" (pair_of 600 500)
    else VUndef in
  Ok (match size with
      | VArr dims =>
          Js.set "height" (nth 1 dims VUndef) (Js.set "width" (nth 0 dims VUndef) response)
      | _ => response
      end).

(** *** replacer *)

(** One value [val] of a template; [recur] is [replFn] at [val]. *)
Definition replEntry (recur : list value -> result value)
    (args : list value) (val : value) : result value :=
  match val with
  | VFun f => call f args
  | VArr _ | VObj _ | VRegExp _ => recur args
  | VUndef | VNull | VBool _ | VNum _ | VStr _ => Ok val
  end.

(** The template walker [replFn({args, ref})]. *)
Fixpoint replFn (ref : value) (args : list value) {struct ref} : result value :=
  match ref with
  | VUndef | VNull => Throw TypeError
  | VObj ps =>
      out <- (fix each (ps : fields) (res : fields) : result fields :=
                match ps with
                | [] => Ok res
                | (key, val) :: rest =>
                    x <- replEntry (replFn val) args val ;;
                    each rest (Js.set key x res)
                end) ps [] ;;
      Ok (VObj out)
  | VArr xs =>
      out <- (fix each (xs : list value) : result (list value) :=
                match xs with
                | [] => Ok []
                | val :: rest =>
                    x <- replEntry (replFn val) args val ;;
                    ys <- each rest ;;
                    Ok (x :: ys)
                end) xs ;;
      Ok (VArr out)
  | VStr s => Ok (VObj (Js.indexed_from 0 (Js.chars s)))
  | VBool _ | VNum _ | VFun _ | VRegExp _ => Ok (VObj [])
  end.

(** The three shapes of the override evaluator chosen by [replacer]. *)
Definition overrideOf (replDef : value) (ruleNo : nat)
  : (list value -> result value) * list log_entry :=
  match replDef with
  | VFun f => (fun args => call f args, [])
  | _ =>
      if negb (Js.is_object_type replDef)
      then (fun _ => Ok (VObj []), [LogError "then" ruleNo])
      else (replFn replDef, [])
  end.

Definition resolve (bid : value) (response : fields) : fields :=
  match responseResolvers (field "mediaType" response) with
  | Some resolver => resolver bid response
  | None => response
  end.

Definition replacer (replDef : value) (ruleNo : nat)
  : (value -> list value -> result value) * list log_entry :=
  match replDef with
  | VNull => (fun _ _ => Ok VNull, [])
  | _ =>
      let (override, logs) := overrideOf (Js.or replDef (VObj [])) ruleNo in
      (fun bid args =>
         response <- responseDefaults bid ;;
         template <- override (bid :: args) ;;
         let response := mergeDeep response template in
         let response := resolve bid response in
         Ok (VObj (Js.set "isDebug" (VBool true) response)),
       logs)
  end.

(** *** paapiReplacer *)

Definition outside_config_igb (k : string) : bool :=
  negb (existsb (String.eqb k) ["config"; "igb"]).

Definition wrapConfig (config : value) : result value :=
  ks <- Js.keys config ;;
  Ok (if existsb outside_config_igb ks then VObj [("config", config)] else config).

(** [wrap(configs = [])]; only an array has a [map] to call. *)
Definition wrap (configs : value) : result value :=
  match (match configs with VUndef => VArr [] | _ => configs end) with
  | VArr cs => out <- mapM wrapConfig cs ;; Ok (VArr out)
  | _ => Throw TypeError
  end.

Definition paapiReplacer (paapiDef : value) (ruleNo : nat)
  : option (list value -> result value) * list log_entry :=
  match paapiDef with
  | VArr _ => (Some (fun _ => wrap paapiDef), [])
  | VFun f => (Some (fun args => raw <- call f args ;; wrap raw), [])
  | _ => (None, [LogError "paapi" ruleNo])
  end.

(** *** rule, updateConfig *)

Definition rule (ruleDef : value) (ruleNo : nat) : result (Rule * list log_entry) :=
  when <- Js.get ruleDef "when" ;;
  then_ <- Js.get ruleDef "then" ;;
  opts <- Js.get ruleDef "options" ;;
  paapiDef <- Js.get ruleDef "paapi" ;;
  let (m, logs_when) := matcher when ruleNo in
  let (r, logs_then) := replacer then_ ruleNo in
  let (p, logs_paapi) := paapiReplacer (Js.or paapiDef (VArr [])) ruleNo in
  Ok ({| rule_no := ruleNo;
         rule_match := m;
         rule_replace := r;
         rule_options := Js.assign (Js.assign [] (VObj DEFAULT_RULE_OPTIONS)) opts;
         rule_paapi := p |},
      logs_when ++ logs_then ++ logs_paapi).

Fixpoint rules_from (i : nat) (ruleDefs : list value) : result (list Rule * list log_entry) :=
  match ruleDefs with
  | [] => Ok ([], [])
  | ruleDef :: rest =>
      r <- rule ruleDef (i + 1) ;;
      rs <- rules_from (S i) rest ;;
      Ok (fst r :: fst rs, snd r ++ snd rs)
  end.

(** [updateConfig(config)]: the new value of [this.rules], and what was
    logged while compiling. *)
Definition updateConfig (config : value) : result (list Rule * list log_entry) :=
  defs <- Js.get config "intercept" ;;
  match Js.or defs (VArr []) with
  | VArr ruleDefs => rules_from 0 ruleDefs
  | _ => Throw TypeError
  end.

(** [this.rules] of a fresh interceptor after [updateConfig(config)]; the
    rules stay empty when the call throws. *)
Definition rulesAfter (config : value) : list Rule :=
  match updateConfig config with
  | Ok (rules, _) => rules
  | Throw _ => []
  end.

(** *** match, matchAll *)

(** [this.rules.find((rule) => rule.match(candidate, ...args))] *)
Fixpoint match_ (rules : list Rule) (candidate : value) (args : list value)
  : result (option Rule) :=
  match rules with
  | [] => Ok None
  | r :: rest =>
      hit <- rule_match r candidate args ;;
      if Js.truthy hit then Ok (Some r) else match_ rest candidate args
  end.

Record Match : Type := { m_rule : Rule; m_bid : value }.

(** The body of [bids.forEach] in [matchAll], threading the two arrays. *)
Definition matchOne (rules : list Rule) (bidRequest : value)
    (acc : list Match * list value) (bid : value) : result (list Match * list value) :=
  found <- match_ rules bid [bidRequest] ;;
  match found with
  | Some r => Ok (fst acc ++ [{| m_rule := r; m_bid := bid |}], snd acc)
  | None => Ok (fst acc, snd acc ++ [bid])
  end.

Fixpoint foldM {A B} (f : A -> B -> result A) (l : list B) (a : A) : result A :=
  match l with
  | [] => Ok a
  | b :: l' => a' <- f a b ;; foldM f l' a'
  end.

Definition matchAll (rules : list Rule) (bids bidRequest : value)
  : result (list Match * list value) :=
  match bids with
  | VArr bs => foldM (matchOne rules bidRequest) bs ([], [])
  | _ => Throw TypeError
  end.

(** *** intercept *)

(** What a timer runs when it fires: the delivery closure of one match, or
    [done] itself (the zero-match path).  The closure holds the values of
    its own constants; the variable [bidRequest] it also mentions belongs
    to [intercept] and is read when the timer fires. *)
Inductive Task : Type :=
| Deliver (mockResponse mockPaapi bid : value)
| Done.

(** One call [this.setTimeout(task, delay)]. *)
Record Timer : Type := { t_task : Task; t_delay : value }.

(** What a call of [intercept] leaves behind: the timers it has set, in
    the order of the calls, the count [callDone] was created with, the
    final value of its variable [bidRequest], which the delivery closures
    share, and the log. *)
Record Scheduled : Type := {
  timers : list Timer;
  numRequiredCalls : Z;
  captured : value;
  logs : list log_entry
}.

Record Outcome : Type := { bids : value; bidRequest : value }.

(** [if (bids == null) bids = bidRequest.bids] *)
Definition bidsOrDefault (bids bidRequest : value) : result value :=
  if Js.nullish bids then Js.get bidRequest "bids" else Ok bids.

(** The body of [matches.forEach]: both mocks are computed now, their
    delivery is left to a timer. *)
Definition schedule (bidRequest : value) (m : Match) : result (Timer * log_entry) :=
  mockResponse <- rule_replace (m_rule m) (m_bid m) [bidRequest] ;;
  mockPaapi <- match rule_paapi (m_rule m) with
               | Some generator => generator [m_bid m; bidRequest]
               | None => Throw TypeError
               end ;;
  let delay := field "delay" (rule_options (m_rule m)) in
  Ok ({| t_task := Deliver mockResponse mockPaapi (m_bid m); t_delay := delay |},
      LogMessage (rule_no (m_rule m)) delay (m_bid m) mockResponse mockPaapi).

(** [bidRequest.bids = remainder] in strict code.  A named property on an
    array, function or regular expression has no place in [value]; such a
    request is returned as it is. *)
Definition setBids (bidRequest : value) (remainder : list value) : result value :=
  match bidRequest with
  | VObj ps => Ok (VObj (Js.set "bids" (VArr remainder) ps))
  | VUndef | VNull | VBool _ | VNum _ | VStr _ => Throw TypeError
  | VArr _ | VFun _ | VRegExp _ => Ok bidRequest
  end.

(** The loop [matches.forEach]: the matches are synthesized and their
    timers set one after the other, so the timers set for the earlier
    matches stay set when synthesizing a later match throws. *)
Fixpoint scheduleAll (bidRequest : value) (matched : list Match)
    (set : list (Timer * log_entry)) : list (Timer * log_entry) * option exn :=
  match matched with
  | [] => (set, None)
  | m :: rest =>
      match schedule bidRequest m with
      | Ok timer => scheduleAll bidRequest rest (set ++ [timer])
      | Throw e => (set, Some e)
      end
  end.

Definition nothingScheduled (bidRequest : value) : Scheduled :=
  {| timers := []; numRequiredCalls := 0; captured := bidRequest; logs := [] |}.

(** A call of [intercept], with all it does: what it has scheduled when it
    ends, and the outcome it returns or the exception it ends with.  The
    variable [bidRequest] is reassigned (to the copy) only after the
    loop. *)
Definition interceptCall (rules : list Rule) (bids bidRequest : value)
  : Scheduled * result Outcome :=
  match bidsOrDefault bids bidRequest with
  | Throw e => (nothingScheduled bidRequest, Throw e)
  | Ok bids =>
      match matchAll rules bids bidRequest with
      | Throw e => (nothingScheduled bidRequest, Throw e)
      | Ok (matched, remainder) =>
          if (0 <? List.length matched)%nat then
            let (set, thrown) := scheduleAll bidRequest matched [] in
            let scheduled (request : value) :=
              {| timers := map fst set;
                 numRequiredCalls := Z.of_nat (List.length matched);
                 captured := request;
                 logs := map snd set |} in
            match thrown with
            | Some e => (scheduled bidRequest, Throw e)
            | None =>
                let cloned := deepClone bidRequest in
                match setBids cloned remainder with
                | Ok request =>
                    (scheduled request,
                     Ok {| bids := VArr remainder; bidRequest := request |})
                | Throw e => (scheduled cloned, Throw e)
                end
            end
          else
            ({| timers := [ {| t_task := Done; t_delay := VNum 0 |} ];
                numRequiredCalls := 0;
                captured := bidRequest;
                logs := [] |},
             Ok {| bids := bids; bidRequest := bidRequest |})
      end
  end.

(** What the caller of [intercept] gets: the outcome, here paired with
    what the call has scheduled, or else the exception.  What a call that
    ends with an exception leaves scheduled is told by [interceptCall]. *)
Definition intercept (rules : list Rule) (bids bidRequest : value)
  : result (Outcome * Scheduled) :=
  match interceptCall rules bids bidRequest with
  | (scheduled, Ok out) => Ok (out, scheduled)
  | (_, Throw e) => Throw e
  end.

(** *** The timers fire *)

(** The calls the caller of [intercept] observes. *)
Inductive event : Type :=
| AddBid (response bid : value)
| AddPaapiConfig (config bid bidRequest : value)
| DoneCalled.

Record Run : Type := { remaining : Z; trace : list event }.

Definition emit (e : event) (st : Run) : Run :=
  {| remaining := remaining st; trace := trace st ++ [e] |}.

(** Modelled from the spec: the function that [delayExecution(done, n)] of
    src/utils.js returns, a file outside this development: "a counter
    initialized to the match count, decremented by each delivery's
    completion, triggering done at zero". *)
Definition callDone (st : Run) : Run :=
  let left := (remaining st - 1)%Z in
  let st := {| remaining := left; trace := trace st |} in
  if (left =? 0)%Z then emit DoneCalled st else st.

(** The body of a timer.  A [mockPaapi] without [forEach] ends the
    callback before [callDone]. *)
Definition fire (bidRequest : value) (st : Run) (t : Timer) : Run :=
  match t_task t with
  | Done => emit DoneCalled st
  | Deliver mockResponse mockPaapi bid =>
      let st := if Js.truthy mockResponse then emit (AddBid mockResponse bid) st else st in
      match mockPaapi with
      | VArr cfgs =>
          callDone (fold_left (fun st cfg => emit (AddPaapiConfig cfg bid bidRequest) st) cfgs st)
      | _ => st
      end
  end.

(** The timers fire one after the other, in the given order, after the
    call of [intercept] has ended. *)
Definition run (bidRequest : value) (order : list Timer) (st : Run) : Run :=
  fold_left (fire bidRequest) order st.

(** Nothing has been called when the call of [intercept] ends. *)
Definition start (s : Scheduled) : Run :=
  {| remaining := numRequiredCalls s; trace := [] |}.

(** Modelled from the spec: the scheduling primitive handed to the
    constructor, "call this after N milliseconds".  Timers fire by
    increasing delay; timers of equal delay keep the order in which they
    were set.  A delay that is not a number counts as zero. *)
Definition delay_ms (v : value) : Q :=
  match v with
  | VNum q => if Qle_bool q 0 then 0 else q
  | _ => 0
  end.

Fixpoint enqueue (t : Timer) (queue : list Timer) : list Timer :=
  match queue with
  | [] => [t]
  | u :: rest =>
      if Qle_bool (delay_ms (t_delay u)) (delay_ms (t_delay t))
      then u :: enqueue t rest
      else t :: u :: rest
  end.

Definition firing_order (ts : list Timer) : list Timer :=
  fold_left (fun queue t => enqueue t queue) ts [].

(** What one timer contributes to the trace, [done] apart. *)
Definition side_effects (bidRequest : value) (t : Timer) : list event :=
  match t_task t with
  | Deliver mockResponse (VArr cfgs) bid =>
      (if Js.truthy mockResponse then [AddBid mockResponse bid] else [])
      ++ map (fun cfg => AddPaapiConfig cfg bid bidRequest) cfgs
  | Deliver mockResponse _ bid =>
      if Js.truthy mockResponse then [AddBid mockResponse bid] else []
  | Done => []
  end.

Definition count_done (tr : list event) : nat :=
  List.length (filter (fun e => match e with DoneCalled => true | _ => false end) tr).

(** ** The vocabulary of the properties *)

(** A rule's predicate returned a falsy, respectively truthy, value. *)
Definition rejects (candidate : value) (args : list value) (r : Rule) : Prop :=
  exists v, rule_match r candidate args = Ok v /\ Js.truthy v = false.

Definition accepts (candidate : value) (args : list value) (r : Rule) : Prop :=
  exists v, rule_match r candidate args = Ok v /\ Js.truthy v = true.

(** [selected b]: some rule matches the bid [b]. *)
Definition selected (rules : list Rule) (bidRequest bid : value) : bool :=
  match match_ rules bid [bidRequest] with
  | Ok (Some _) => true
  | _ => false
  end.

Definition matched_by (rules : list Rule) (bidRequest : value) (m : Match) : Prop :=
  match_ rules (m_bid m) [bidRequest] = Ok (Some (m_rule m)).

(** The normalization in the words of the specification: an entry with a
    key outside [{config, igb}] is wrapped as [{config: entry}], an entry
    all of whose keys lie in [{config, igb}] is left as it is. *)
Definition normalized (entry out : value) : Prop :=
  exists ks,
    Js.keys entry = Ok ks
    /\ ((exists k, In k ks /\ k <> "config" /\ k <> "igb") -> out = VObj [("config", entry)])
    /\ ((forall k, In k ks -> k = "config" \/ k = "igb") -> out = entry).

(** The sequence a raw generator result stands for: [wrap] takes a missing
    result for the empty sequence. *)
Definition raw_sequence (raw : value) : option (list value) :=
  match raw with
  | VUndef => Some []
  | VArr cs => Some cs
  | _ => None
  end.

(** The raw sequence behind a [paapi] definition: the array itself, or
    what the function returns on the call's arguments. *)
Definition rawConfigs (paapiDef : value) (args : list value) : result value :=
  match paapiDef with
  | VArr _ => Ok paapiDef
  | VFun f => call f args
  | _ => Throw TypeError
  end.

(** A timer that delivers one match, its PAAPI configs an array. *)
Definition is_delivery (t : Timer) : Prop :=
  exists mockResponse cfgs bid, t_task t = Deliver mockResponse (VArr cfgs) bid.

(** The rule's PAAPI generator, where it returns, returns an array. *)
Definition paapi_sequences (r : Rule) : Prop :=
  forall generator args v,
    rule_paapi r = Some generator -> generator args = Ok v -> exists cfgs, v = VArr cfgs.

(** The done signal of the countdown, after a call that leaves [left]. *)
Definition done_at (left : Z) : list event :=
  if (left =? 0)%Z then [DoneCalled] else [].

(** The timer [schedule] sets for a match. *)
Definition delivers (bidRequest : value) (m : Match) (t : Timer) : Prop :=
  exists mockResponse generator cfgs,
    rule_replace (m_rule m) (m_bid m) [bidRequest] = Ok mockResponse
    /\ rule_paapi (m_rule m) = Some generator
    /\ generator [m_bid m; bidRequest] = Ok (VArr cfgs)
    /\ t = {| t_task := Deliver mockResponse (VArr cfgs) (m_bid m);
              t_delay := field "delay" (rule_options (m_rule m)) |}.

Definition isPlainObject (v : value) : bool :=
  match v with VObj _ => true | _ => false end.

(** The field-wise merge of the properties [ops] into [bps]. *)
Fixpoint mergeProps (ops bps : fields) : fields :=
  match ops with
  | [] => bps
  | (k, v) :: rest => mergeProps rest (Js.set k (mergeValue v (field k bps)) bps)
  end.

(** The post-processors only add to a response: a property that is set
    stays as it is. *)
Definition augments : Prop :=
  forall mediaType resolver bid response k v,
    responseResolvers mediaType = Some resolver ->
    Js.lookup k response = Some v ->
    Js.lookup k (resolver bid response) = Some v.

(** The bid sets no media type of its own, the type inferred for it is
    banner or video, and the size resolved for that type is an array. *)
Definition sized (bid : value) : Prop :=
  Js.truthy (Js.get_opt bid "mediaType") = false
  /\ let mediaTypes := Js.get_opt bid "mediaTypes" in
     (inferredMediaType mediaTypes = VStr BANNER
      /\ Js.isArray (firstSize mediaTypes "banner" "sizes" (pair_of 300 250)) = true)
     \/ (inferredMediaType mediaTypes = VStr VIDEO
         /\ Js.isArray (firstSize mediaTypes "video" "playerSize" (pair_of 600 500)) = true).

(** A value that is neither an object nor a function. *)
Definition scalar (v : value) : bool :=
  match v with
  | VUndef | VBool _ | VNum _ | VStr _ => true
  | VNull | VArr _ | VObj _ | VFun _ | VRegExp _ => false
  end.

Fixpoint distinct (ks : list string) : bool :=
  match ks with
  | [] => true
  | k :: rest => negb (existsb (String.eqb k) rest) && distinct rest
  end.

(** A template without functions and regular expressions, the keys of
    each of its objects distinct. *)
Fixpoint literal (t : value) : bool :=
  match t with
  | VFun _ | VRegExp _ => false
  | VArr xs => forallb literal xs
  | VObj ps => distinct (map fst ps) && forallb (fun kv => literal (snd kv)) ps
  | VUndef | VNull | VBool _ | VNum _ | VStr _ => true
  end.

(** The loop of [matches] over the entries of an object. *)
Definition matchProps (candidate : value) (args : list value) : fields -> result bool :=
  fix each (ps : fields) : result bool :=
    match ps with
    | [] => Ok true
    | (key, val) :: rest =>
        b <- matchEntry (matches val) candidate args key val ;;
        bs <- each rest ;;
        Ok (b && bs)
    end.

(** The loops of [replFn] over the entries of an object and of an array. *)
Definition replProps (args : list value) : fields -> fields -> result fields :=
  fix each (ps : fields) (res : fields) : result fields :=
    match ps with
    | [] => Ok res
    | (key, val) :: rest =>
        x <- replEntry (replFn val) args val ;;
        each rest (Js.set key x res)
    end.

Definition replItems (args : list value) : list value -> result (list value) :=
  fix each (xs : list value) : result (list value) :=
    match xs with
    | [] => Ok []
    | val :: rest =>
        x <- replEntry (replFn val) args val ;;
        ys <- each rest ;;
        Ok (x :: ys)
    end.

(** The functions a [then] definition has called: the definition itself,
    or the function-valued entries of the template, at any depth. *)
Fixpoint calledIn (t : value) : list fn :=
  match t with
  | VFun f => [f]
  | VArr xs => flat_map calledIn xs
  | VObj ps => flat_map (fun kv => calledIn (snd kv)) ps
  | VUndef | VNull | VBool _ | VNum _ | VStr _ | VRegExp _ => []
  end.

(** The bid a timer delivers for. *)
Definition delivered_bid (t : Timer) : value :=
  match t_task t with
  | Deliver _ _ bid => bid
  | Done => VUndef
  end.

(** The generator of a rule without override: the defaults,
    post-processed and stamped. *)
Definition defaultsOnly (bid : value) : result value :=
  response <- responseDefaults bid ;;
  Ok (VObj (Js.set "isDebug" (VBool true) (resolve bid response))).

(** * Properties *)

(** ** The result monad and property lists *)

Lemma bind_Ok {A B} (m : result A) (k : A -> result B) (b : B) :
  bind m k = Ok b -> exists a, m = Ok a /\ k a = Ok b.
Proof.
  destruct m as [a | e]; simpl; intros H.
  - exists a. split; [reflexivity | exact H].
  - discriminate H.
Qed.

Ltac inv_bind H :=
  let a := fresh "a" in
  let Ha := fresh "Ha" in
  apply bind_Ok in H; destruct H as (a & Ha & H).

Lemma scheduleAll_mapM bidRequest matched :
  forall set,
    match mapM (schedule bidRequest) matched with
    | Ok timers => scheduleAll bidRequest matched set = (set ++ timers, None)
    | Throw e => exists timers, scheduleAll bidRequest matched set = (set ++ timers, Some e)
    end.
Proof.
  induction matched as [| m ms IH]; intros set; simpl.
  - now rewrite app_nil_r.
  - destruct (schedule bidRequest m) as [timer | e]; simpl.
    + specialize (IH (set ++ [timer])).
      destruct (mapM (schedule bidRequest) ms) as [timers | e]; simpl.
      * rewrite IH. now rewrite <- app_assoc.
      * destruct IH as (timers & ->). exists (timer :: timers). now rewrite <- app_assoc.
    + exists []. now rewrite app_nil_r.
Qed.

(** [intercept], as a computation that stops at the first exception. *)
Lemma intercept_unfold rules bids bidRequest :
  intercept rules bids bidRequest
  = (bids <- bidsOrDefault bids bidRequest ;;
     parts <- matchAll rules bids bidRequest ;;
     let (matched, remainder) := parts in
     if (0 <? List.length matched)%nat then
       set <- mapM (schedule bidRequest) matched ;;
       bidRequest <- setBids (deepClone bidRequest) remainder ;;
       Ok ({| bids := VArr remainder; bidRequest := bidRequest |},
           {| timers := map fst set;
              numRequiredCalls := Z.of_nat (List.length matched);
              captured := bidRequest;
              logs := map snd set |})
     else
       Ok ({| bids := bids; bidRequest := bidRequest |},
           {| timers := [ {| t_task := Done; t_delay := VNum 0 |} ];
              numRequiredCalls := 0;
              captured := bidRequest;
              logs := [] |})).
Proof.
  unfold intercept, interceptCall.
  destruct (bidsOrDefault bids bidRequest) as [bs | e]; simpl; [| reflexivity].
  destruct (matchAll rules bs bidRequest) as [[matched remainder] | e]; simpl;
    [| reflexivity].
  destruct (0 <? List.length matched)%nat; [| reflexivity].
  pose proof (scheduleAll_mapM bidRequest matched []) as H.
  destruct (mapM (schedule bidRequest) matched) as [timers | e]; simpl.
  - rewrite H. simpl. destruct (setBids (deepClone bidRequest) remainder); reflexivity.
  - destruct H as (timers & ->). reflexivity.
Qed.

Lemma lookup_set_same k x ps : Js.lookup k (Js.set k x ps) = Some x.
Proof.
  induction ps as [| [k' v] ps IH]; simpl.
  - now rewrite String.eqb_refl.
  - destruct (String.eqb k k') eqn:E; simpl; rewrite E; [reflexivity | exact IH].
Qed.

Lemma lookup_set_other k k' x ps :
  k <> k' -> Js.lookup k (Js.set k' x ps) = Js.lookup k ps.
Proof.
  intros Hne. induction ps as [| [k0 v] ps IH]; simpl.
  - destruct (String.eqb k k') eqn:E; [apply String.eqb_eq in E; contradiction | reflexivity].
  - destruct (String.eqb k' k0) eqn:E0; simpl.
    + apply String.eqb_eq in E0. subst k0.
      destruct (String.eqb k k') eqn:E; [apply String.eqb_eq in E; contradiction | reflexivity].
    + destruct (String.eqb k k0); [reflexivity | exact IH].
Qed.

Lemma has_key_set k k' x ps :
  Js.has_key k ps = true -> Js.has_key k (Js.set k' x ps) = true.
Proof.
  unfold Js.has_key. destruct (String.eqb k k') eqn:E.
  - apply String.eqb_eq in E. subst. now rewrite lookup_set_same.
  - apply String.eqb_neq in E. now rewrite lookup_set_other.
Qed.

Lemma has_key_set_same k x ps : Js.has_key k (Js.set k x ps) = true.
Proof. unfold Js.has_key. now rewrite lookup_set_same. Qed.

(** ** The matching engine *)

Lemma match_found rules candidate args r :
  match_ rules candidate args = Ok (Some r) ->
  exists pre post,
    rules = pre ++ r :: post /\ Forall (rejects candidate args) pre /\ accepts candidate args r.
Proof.
  induction rules as [| r0 rest IH]; simpl; intros H.
  - discriminate H.
  - inv_bind H. destruct (Js.truthy a) eqn:T.
    + injection H as <-. exists [], rest. repeat split.
      * constructor.
      * exists a. auto.
    + destruct (IH H) as (pre & post & -> & Hpre & Hr).
      exists (r0 :: pre), post. repeat split; auto.
      constructor; [exists a; auto | exact Hpre].
Qed.

Lemma match_first pre r post candidate args :
  Forall (rejects candidate args) pre -> accepts candidate args r ->
  match_ (pre ++ r :: post) candidate args = Ok (Some r).
Proof.
  intros Hpre (v & Hv & Tv). induction Hpre as [| p pre (w & Hw & Tw) _ IH]; simpl.
  - rewrite Hv. simpl. now rewrite Tv.
  - rewrite Hw. simpl. rewrite Tw. exact IH.
Qed.

Lemma match_none rules candidate args :
  match_ rules candidate args = Ok None <-> Forall (rejects candidate args) rules.
Proof.
  split.
  - induction rules as [| r0 rest IH]; simpl; intros H.
    + constructor.
    + inv_bind H. destruct (Js.truthy a) eqn:T; [discriminate H |].
      constructor; [exists a; auto | auto].
  - induction 1 as [| p rest (w & Hw & Tw) _ IH]; simpl.
    + reflexivity.
    + rewrite Hw. simpl. now rewrite Tw.
Qed.

(** C4. [match] returns the first rule, in authoring order, whose predicate
    answers with a truthy value: the rule returned is preceded only by rules
    whose predicates answered falsy, and nothing is returned exactly when
    every predicate answered falsy.  Hence of two rules that both match,
    the result is never the later one. *)
Theorem match_first_match_wins (rules : list Rule) (candidate : value) (args : list value) :
  (forall r, match_ rules candidate args = Ok (Some r) <->
             exists pre post, rules = pre ++ r :: post /\
                              Forall (rejects candidate args) pre /\
                              accepts candidate args r)
  /\ (match_ rules candidate args = Ok None <-> Forall (rejects candidate args) rules)
  /\ (forall pre r1 mid r2 post r,
        rules = pre ++ r1 :: mid ++ r2 :: post ->
        accepts candidate args r1 -> accepts candidate args r2 ->
        match_ rules candidate args = Ok (Some r) ->
        exists pre' post', pre ++ [r1] = pre' ++ r :: post').
Proof.
  split; [| split].
  - intros r. split.
    + apply match_found.
    + intros (pre & post & -> & Hpre & Hr). now apply match_first.
  - apply match_none.
  - intros pre r1 mid r2 post r -> H1 _ H.
    apply match_found in H. destruct H as (p & q & E & Hp & Hr).
    revert pre E. induction Hp as [| x p Hx Hp IH]; intros pre E.
    + destruct pre as [| y pre]; simpl in E; injection E as <- _.
      * exists [], []. reflexivity.
      * exists [], (pre ++ [r1]). reflexivity.
    + destruct pre as [| y pre]; simpl in E; injection E as <- E.
      * exfalso. destruct Hx as (v & Hv & Tv), H1 as (w & Hw & Tw). congruence.
      * destruct (IH pre E) as (pre' & post' & E').
        exists (y :: pre'), post'. simpl. now rewrite E'.
Qed.

Lemma matchAll_loop rules bidRequest bs :
  forall acc matched remainder,
    foldM (matchOne rules bidRequest) bs acc = Ok (matched, remainder) ->
    map m_bid matched = map m_bid (fst acc) ++ filter (selected rules bidRequest) bs
    /\ remainder = snd acc ++ filter (fun b => negb (selected rules bidRequest b)) bs
    /\ (Forall (matched_by rules bidRequest) (fst acc) ->
        Forall (matched_by rules bidRequest) matched).
Proof.
  induction bs as [| bid bs IH]; simpl; intros [ms rs] matched remainder H.
  - injection H as <- <-. simpl. now rewrite !app_nil_r.
  - inv_bind H. unfold matchOne in Ha. inv_bind Ha. rename a0 into found.
    destruct (IH _ _ _ H) as (Hm & Hr & HF). clear IH H.
    assert (E : selected rules bidRequest bid = match found with Some _ => true | None => false end)
      by (unfold selected; now rewrite Ha0).
    rewrite E.
    destruct found as [r |]; injection Ha as <-; simpl in *.
    + rewrite map_app in Hm. simpl in Hm. rewrite <- app_assoc in Hm. simpl in Hm.
      split; [exact Hm | split; [exact Hr |]].
      intros Hacc. apply HF. apply Forall_app. split; [exact Hacc |].
      constructor; [exact Ha0 | constructor].
    + rewrite <- app_assoc in Hr. simpl in Hr.
      split; [exact Hm | split; [exact Hr | exact HF]].
Qed.

Lemma matchAll_loop_total rules bidRequest bs :
  Forall (fun b => exists found, match_ rules b [bidRequest] = Ok found) bs ->
  forall acc, exists out, foldM (matchOne rules bidRequest) bs acc = Ok out.
Proof.
  induction 1 as [| bid bs (found & Hf) _ IH]; intros acc; simpl.
  - now exists acc.
  - unfold matchOne at 1. rewrite Hf. simpl. destruct found; simpl; apply IH.
Qed.

Lemma filter_length_split {A} (f : A -> bool) (l : list A) :
  List.length (filter f l) + List.length (filter (fun a => negb (f a)) l) = List.length l.
Proof.
  induction l as [| a l IH]; simpl; [reflexivity |].
  destruct (f a); simpl; lia.
Qed.

Lemma matchAll_outcome rules bs bidRequest matched remainder :
  matchAll rules (VArr bs) bidRequest = Ok (matched, remainder) ->
  map m_bid matched = filter (selected rules bidRequest) bs
  /\ remainder = filter (fun b => negb (selected rules bidRequest b)) bs
  /\ Forall (matched_by rules bidRequest) matched.
Proof.
  intros H. simpl in H. apply matchAll_loop in H. simpl in H.
  destruct H as (Hm & Hr & HF). auto.
Qed.

(** C5. [matchAll] partitions the batch: the matched bids are the bids some
    rule matches and the unmatched bids are the others, each list in input
    order; so the two lengths add up to the batch length and every bid of
    the batch is in exactly one of the two lists.  Each matched bid is
    paired with the rule [match] returns for it, and [matchAll] returns
    whenever [match] returns on every bid. *)
Theorem matchAll_partitions (rules : list Rule) (bs : list value) (bidRequest : value) :
  (forall matched remainder,
      matchAll rules (VArr bs) bidRequest = Ok (matched, remainder) ->
      List.length matched + List.length remainder = List.length bs
      /\ map m_bid matched = filter (selected rules bidRequest) bs
      /\ remainder = filter (fun b => negb (selected rules bidRequest b)) bs
      /\ Forall (matched_by rules bidRequest) matched
      /\ (forall b, In b bs ->
             (In b (map m_bid matched) /\ ~ In b remainder)
             \/ (~ In b (map m_bid matched) /\ In b remainder)))
  /\ (Forall (fun b => exists found, match_ rules b [bidRequest] = Ok found) bs ->
      exists matched remainder, matchAll rules (VArr bs) bidRequest = Ok (matched, remainder)).
Proof.
  split.
  - intros matched remainder H.
    destruct (matchAll_outcome _ _ _ _ _ H) as (Hm & Hr & HF).
    split; [| split; [| split; [| split]]]; auto.
    + rewrite <- (length_map m_bid), Hm, Hr. apply filter_length_split.
    + intros b Hb. rewrite Hm, Hr.
      destruct (selected rules bidRequest b) eqn:E; [left | right]; split.
      * apply filter_In. auto.
      * intros Hin. apply filter_In in Hin. rewrite E in Hin. destruct Hin. discriminate.
      * intros Hin. apply filter_In in Hin. destruct Hin. congruence.
      * apply filter_In. rewrite E. auto.
  - intros Hall. destruct (matchAll_loop_total _ _ _ Hall ([], [])) as ([m r] & H).
    exists m, r. exact H.
Qed.

(** ** The matcher compiler *)

(** C10. A rule whose [when] is the empty object has a predicate that
    answers [true] for every candidate and context, and compiling it logs
    no definition error; [match] therefore returns that rule for every bid
    that reaches it, that is, whenever the rules before it answered falsy. *)
Theorem empty_when_matches_everything
    (ruleDef : value) (ruleNo : nat) (r : Rule) (logged : list log_entry) :
  Js.get ruleDef "when" = Ok (VObj []) ->
  rule ruleDef ruleNo = Ok (r, logged) ->
  fst (matcher (VObj []) ruleNo) = rule_match r
  /\ ~ In (LogError "when" ruleNo) (snd (matcher (VObj []) ruleNo))
  /\ (forall candidate args, rule_match r candidate args = Ok (VBool true))
  /\ (forall pre post candidate args,
        Forall (rejects candidate args) pre ->
        match_ (pre ++ r :: post) candidate args = Ok (Some r)).
Proof.
  intros Hwhen H. unfold rule in H. rewrite Hwhen in H. simpl in H.
  inv_bind H. inv_bind H. inv_bind H.
  destruct (replacer a ruleNo) as [rep l2].
  destruct (paapiReplacer (Js.or a1 (VArr [])) ruleNo) as [pa l3].
  injection H as <- _. simpl.
  split; [reflexivity | split; [tauto | split]].
  - reflexivity.
  - intros pre post candidate args Hpre. apply match_first; [exact Hpre |].
    exists (VBool true). split; reflexivity.
Qed.

(** ** The auxiliary-config compiler *)

Lemma outside_config_igb_spec k :
  outside_config_igb k = true <-> k <> "config" /\ k <> "igb".
Proof.
  unfold outside_config_igb. simpl. rewrite orb_false_r, negb_true_iff, orb_false_iff.
  rewrite !String.eqb_neq. tauto.
Qed.

Lemma wrapConfig_normalized config out :
  wrapConfig config = Ok out -> normalized config out.
Proof.
  unfold wrapConfig. intros H. inv_bind H. rename a into ks. injection H as <-.
  exists ks. split; [exact Ha | split].
  - intros (k & Hin & Hk). apply outside_config_igb_spec in Hk.
    assert (E : existsb outside_config_igb ks = true)
      by (apply existsb_exists; exists k; auto).
    now rewrite E.
  - intros Hall. destruct (existsb outside_config_igb ks) eqn:E; [| reflexivity].
    apply existsb_exists in E. destruct E as (k & Hin & Hk).
    apply outside_config_igb_spec in Hk. destruct (Hall k Hin); tauto.
Qed.

Lemma wrapConfig_returns config :
  Js.nullish config = false -> exists out, wrapConfig config = Ok out.
Proof.
  intros Hn. unfold wrapConfig, Js.keys, Js.entries.
  destruct config; try discriminate Hn; simpl; eauto.
Qed.

Lemma mapM_wrapConfig cs out :
  mapM wrapConfig cs = Ok out -> Forall2 normalized cs out.
Proof.
  revert out. induction cs as [| c cs IH]; simpl; intros out H.
  - injection H as <-. constructor.
  - inv_bind H. inv_bind H. injection H as <-.
    constructor; [now apply wrapConfig_normalized | now apply IH].
Qed.

Lemma mapM_wrapConfig_returns cs :
  Forall (fun c => Js.nullish c = false) cs -> exists out, mapM wrapConfig cs = Ok out.
Proof.
  induction 1 as [| c cs Hc _ (out & IH)]; simpl.
  - eauto.
  - destruct (wrapConfig_returns c Hc) as (o & Ho). rewrite Ho, IH. simpl. eauto.
Qed.

Lemma wrap_inv raw v :
  wrap raw = Ok v ->
  exists cs out, raw_sequence raw = Some cs /\ v = VArr out /\ Forall2 normalized cs out.
Proof.
  unfold wrap. intros H.
  destruct raw; try discriminate H; simpl in H.
  - injection H as <-. exists [], []. repeat split. constructor.
  - inv_bind H. injection H as <-. exists xs, a. repeat split.
    now apply mapM_wrapConfig.
Qed.

Lemma wrap_returns raw cs :
  raw_sequence raw = Some cs -> Forall (fun c => Js.nullish c = false) cs ->
  exists out, wrap raw = Ok (VArr out).
Proof.
  intros Hraw Hcs. destruct raw; try discriminate Hraw; injection Hraw as <-.
  - exists []. reflexivity.
  - destruct (mapM_wrapConfig_returns _ Hcs) as (out & Hout).
    exists out. unfold wrap. now rewrite Hout.
Qed.

(** C8. An array-valued or function-valued [paapi] compiles to a generator,
    without a definition error.  Whatever the generator returns is an array
    (never [null]) holding, entry by entry, the normalized raw sequence:
    an entry with a key outside [{config, igb}] wrapped as [{config: entry}],
    an entry whose keys all lie in [{config, igb}] (the empty object
    included) unchanged.  The generator does return when the raw entries
    are objects (none is [null] or [undefined]). *)
Theorem paapi_generator_normalizes (paapiDef : value) (ruleNo : nat) :
  Js.isArray paapiDef = true \/ Js.is_function paapiDef = true ->
  exists generator,
    paapiReplacer paapiDef ruleNo = (Some generator, [])
    /\ forall args raw,
        rawConfigs paapiDef args = Ok raw ->
        (forall v, generator args = Ok v ->
                   exists cs out,
                     raw_sequence raw = Some cs /\ v = VArr out /\ v <> VNull
                     /\ Forall2 normalized cs out)
        /\ (forall cs, raw_sequence raw = Some cs ->
                       Forall (fun c => Js.nullish c = false) cs ->
                       exists out, generator args = Ok (VArr out)
                                   /\ Forall2 normalized cs out).
Proof.
  intros Hshape.
  assert (Hgen : forall raw,
             (forall v, wrap raw = Ok v ->
                        exists cs out,
                          raw_sequence raw = Some cs /\ v = VArr out /\ v <> VNull
                          /\ Forall2 normalized cs out)
             /\ (forall cs, raw_sequence raw = Some cs ->
                            Forall (fun c => Js.nullish c = false) cs ->
                            exists out, wrap raw = Ok (VArr out)
                                        /\ Forall2 normalized cs out)).
  { intros raw. split.
    - intros v H. destruct (wrap_inv _ _ H) as (cs & out & Hraw & -> & HF).
      exists cs, out. repeat split; auto. discriminate.
    - intros cs Hraw Hcs. destruct (wrap_returns _ _ Hraw Hcs) as (out & Hout).
      exists out. split; [exact Hout |].
      destruct (wrap_inv _ _ Hout) as (cs' & out' & Hraw' & E & HF).
      injection E as <-. congruence. }
  destruct paapiDef as [| | | | | cs | | f |];
    try (destruct Hshape as [H | H]; discriminate H); clear Hshape; simpl.
  - eexists. split; [reflexivity |].
    intros args raw Hraw. injection Hraw as <-. apply Hgen.
  - eexists. split; [reflexivity |].
    intros args raw Hraw. simpl in Hraw. cbv beta. rewrite Hraw. simpl. apply Hgen.
Qed.

(** ** Delivery *)

Lemma emit_all (f : value -> event) (cfgs : list value) (st : Run) :
  fold_left (fun st cfg => emit (f cfg) st) cfgs st
  = {| remaining := remaining st; trace := trace st ++ map f cfgs |}.
Proof.
  revert st. induction cfgs as [| c cfgs IH]; intros st; simpl.
  - rewrite app_nil_r. now destruct st.
  - rewrite IH. simpl. now rewrite <- app_assoc.
Qed.

Lemma fire_delivery bidRequest st t :
  is_delivery t ->
  remaining (fire bidRequest st t) = (remaining st - 1)%Z
  /\ trace (fire bidRequest st t)
     = trace st ++ side_effects bidRequest t ++ done_at (remaining st - 1).
Proof.
  intros (mr & cfgs & bid & Ht). unfold fire, side_effects. rewrite Ht.
  rewrite emit_all. unfold callDone, done_at. cbn [remaining trace].
  destruct (Js.truthy mr); cbn [remaining trace emit];
    destruct (remaining st - 1 =? 0)%Z; cbn [remaining trace emit app];
    rewrite <- ?app_assoc; cbn [app]; rewrite ?app_nil_r; auto.
Qed.

Lemma run_deliveries bidRequest order :
  Forall is_delivery order ->
  forall st,
    remaining (run bidRequest order st) = (remaining st - Z.of_nat (List.length order))%Z
    /\ ((Z.of_nat (List.length order) < remaining st)%Z ->
        trace (run bidRequest order st)
        = trace st ++ flat_map (side_effects bidRequest) order)
    /\ (Z.of_nat (List.length order) = remaining st -> order <> [] ->
        trace (run bidRequest order st)
        = trace st ++ flat_map (side_effects bidRequest) order ++ [DoneCalled]).
Proof.
  induction 1 as [| t order Ht _ IH]; intros st.
  - simpl. split; [lia | split].
    + intros _. now rewrite app_nil_r.
    + intros _ Hne. now contradiction Hne.
  - destruct (fire_delivery bidRequest st t Ht) as (Hrem & Htr).
    destruct (IH (fire bidRequest st t)) as (IH1 & IH2 & IH3). clear IH.
    change (run bidRequest (t :: order) st) with (run bidRequest order (fire bidRequest st t)).
    cbn [List.length flat_map]. rewrite Nat2Z.inj_succ.
    split; [rewrite IH1, Hrem; lia | split].
    + intros Hlt. rewrite IH2 by lia. rewrite Htr. unfold done_at.
      destruct (remaining st - 1 =? 0)%Z eqn:E; [lia |].
      now rewrite app_nil_r, <- !app_assoc.
    + intros Heq _. destruct order as [| u order].
      * simpl. rewrite Htr. unfold done_at. simpl in Heq.
        replace (remaining st - 1 =? 0)%Z with true by (symmetry; apply Z.eqb_eq; lia).
        now rewrite app_nil_r.
      * rewrite IH3; [| lia | discriminate]. rewrite Htr. unfold done_at.
        destruct (remaining st - 1 =? 0)%Z eqn:E;
          [apply Z.eqb_eq in E; cbn [List.length] in Heq; lia |].
        now rewrite app_nil_r, <- !app_assoc.
Qed.

Lemma side_effects_no_done bidRequest order :
  count_done (flat_map (side_effects bidRequest) order) = 0.
Proof.
  unfold count_done. induction order as [| t order IH]; simpl; [reflexivity |].
  rewrite filter_app, length_app, IH, Nat.add_0_r.
  unfold side_effects. destruct (t_task t) as [mr pa bid |]; [| reflexivity].
  assert (H : forall cfgs : list value,
             List.length (filter (fun e => match e with DoneCalled => true | _ => false end)
                            (map (fun cfg => AddPaapiConfig cfg bid bidRequest) cfgs)) = 0)
    by (induction cfgs; simpl; auto).
  destruct pa; destruct (Js.truthy mr); simpl; auto.
Qed.

Lemma enqueue_perm t queue : Permutation (enqueue t queue) (t :: queue).
Proof.
  induction queue as [| u queue IH]; simpl.
  - apply Permutation_refl.
  - destruct (Qle_bool _ _).
    + eapply perm_trans; [apply perm_skip; exact IH | apply perm_swap].
    + apply Permutation_refl.
Qed.

Lemma firing_order_perm ts : Permutation (firing_order ts) ts.
Proof.
  unfold firing_order.
  assert (H : forall queue, Permutation (fold_left (fun q t => enqueue t q) ts queue) (queue ++ ts)).
  { induction ts as [| t ts IH]; intros queue; simpl.
    - rewrite app_nil_r. apply Permutation_refl.
    - eapply perm_trans; [apply IH |].
      eapply perm_trans; [apply Permutation_app_tail; apply enqueue_perm |].
      simpl. apply Permutation_middle. }
  apply (H []).
Qed.

Lemma paapiReplacer_sequences paapiDef ruleNo generator logged args v :
  paapiReplacer paapiDef ruleNo = (Some generator, logged) ->
  generator args = Ok v -> exists cfgs, v = VArr cfgs.
Proof.
  intros Hc Hg. destruct paapiDef; simpl in Hc; try discriminate Hc;
    injection Hc as <- _.
  - destruct (wrap_inv _ _ Hg) as (_ & out & _ & -> & _). eauto.
  - inv_bind Hg. destruct (wrap_inv _ _ Hg) as (_ & out & _ & -> & _). eauto.
Qed.

Lemma rule_sequences ruleDef ruleNo r logged :
  rule ruleDef ruleNo = Ok (r, logged) -> paapi_sequences r.
Proof.
  unfold rule. intros H. inv_bind H. inv_bind H. inv_bind H. inv_bind H.
  destruct (matcher a ruleNo) as [m l1].
  destruct (replacer a0 ruleNo) as [rep l2].
  destruct (paapiReplacer (Js.or a2 (VArr [])) ruleNo) as [pa l3] eqn:Hp.
  injection H as <- _. intros g args v Hg Hv. simpl in Hg. subst pa.
  eapply paapiReplacer_sequences; eauto.
Qed.

Lemma rules_from_sequences ruleDefs :
  forall i rules logged,
    rules_from i ruleDefs = Ok (rules, logged) -> Forall paapi_sequences rules.
Proof.
  induction ruleDefs as [| d ds IH]; simpl; intros i rules logged H.
  - injection H as <- _. constructor.
  - inv_bind H. inv_bind H. injection H as <- _.
    destruct a as [r l], a0 as [rs ls]. simpl.
    constructor; [eapply rule_sequences; eauto | eapply IH; eauto].
Qed.

Lemma updateConfig_sequences config rules logged :
  updateConfig config = Ok (rules, logged) -> Forall paapi_sequences rules.
Proof.
  unfold updateConfig. intros H. inv_bind H.
  destruct (Js.or a (VArr [])); try discriminate H.
  eapply rules_from_sequences; eauto.
Qed.

Lemma match_In rules candidate args r :
  match_ rules candidate args = Ok (Some r) -> In r rules.
Proof.
  intros H. apply match_found in H. destruct H as (pre & post & -> & _).
  apply in_elt.
Qed.

Lemma schedule_delivers bidRequest m t entry :
  paapi_sequences (m_rule m) ->
  schedule bidRequest m = Ok (t, entry) -> delivers bidRequest m t.
Proof.
  intros Hseq H. unfold schedule in H. inv_bind H. rename a into mr.
  destruct (rule_paapi (m_rule m)) as [g |] eqn:Hg; [| discriminate H].
  inv_bind H. rename a into pa. injection H as <- _.
  destruct (Hseq g _ _ Hg Ha0) as (cfgs & ->).
  exists mr, g, cfgs. auto.
Qed.

Lemma delivers_is_delivery bidRequest m t : delivers bidRequest m t -> is_delivery t.
Proof.
  intros (mr & g & cfgs & _ & _ & _ & ->). exists mr, cfgs, (m_bid m). reflexivity.
Qed.

Lemma schedule_all bidRequest matched :
  Forall (fun m => paapi_sequences (m_rule m)) matched ->
  forall set, mapM (schedule bidRequest) matched = Ok set ->
              Forall2 (delivers bidRequest) matched (map fst set).
Proof.
  induction 1 as [| m ms Hm _ IH]; simpl; intros set H.
  - injection H as <-. constructor.
  - inv_bind H. inv_bind H. injection H as <-. destruct a as [t entry]. simpl.
    constructor; [eapply schedule_delivers; eauto | now apply IH].
Qed.

Lemma matched_rules_in rules bidRequest matched :
  Forall (matched_by rules bidRequest) matched ->
  Forall (fun m => In (m_rule m) rules) matched.
Proof.
  intros H. eapply Forall_impl; [| exact H].
  intros m Hm. eapply match_In. exact Hm.
Qed.

Lemma scheduleAll_reached bidRequest matched :
  forall set set' thrown,
    scheduleAll bidRequest matched set = (set', thrown) ->
    exists reached rest timers,
      matched = reached ++ rest
      /\ mapM (schedule bidRequest) reached = Ok timers
      /\ set' = set ++ timers
      /\ match thrown with
         | None => rest = []
         | Some e => exists m rest', rest = m :: rest' /\ schedule bidRequest m = Throw e
         end.
Proof.
  induction matched as [| m ms IH]; simpl; intros set set' thrown H.
  - injection H as <- <-. exists [], [], []. rewrite !app_nil_r. auto.
  - destruct (schedule bidRequest m) as [timer | e] eqn:E.
    + destruct (IH _ _ _ H) as (reached & rest & timers & -> & Hm & -> & Hth).
      exists (m :: reached), rest, (timer :: timers). simpl. rewrite E, Hm. simpl.
      rewrite <- app_assoc. auto.
    + injection H as <- <-. exists [], (m :: ms), []. rewrite app_nil_r.
      repeat split; auto. exists m, ms. auto.
Qed.

Lemma run_scheduled bidRequest scheduled n order :
  Forall is_delivery scheduled ->
  Permutation order scheduled ->
  let st := {| remaining := n; trace := [] |} in
  (Z.of_nat (List.length scheduled) = n -> scheduled <> [] ->
   trace (run bidRequest order st) = flat_map (side_effects bidRequest) order ++ [DoneCalled]
   /\ count_done (trace (run bidRequest order st)) = 1)
  /\ ((Z.of_nat (List.length scheduled) < n)%Z ->
      trace (run bidRequest order st) = flat_map (side_effects bidRequest) order
      /\ count_done (trace (run bidRequest order st)) = 0).
Proof.
  intros Hdel Hperm st.
  assert (Hord : Forall is_delivery order)
    by (eapply Permutation_Forall; [apply Permutation_sym; exact Hperm | exact Hdel]).
  pose proof (Permutation_length Hperm) as Hlen.
  destruct (run_deliveries bidRequest order Hord st) as (_ & Hless & Hall).
  split.
  - intros Hn Hne. rewrite Hall.
    + split; [reflexivity |]. unfold count_done. simpl. rewrite filter_app, length_app.
      fold (count_done (flat_map (side_effects bidRequest) order)).
      now rewrite side_effects_no_done.
    + subst st. cbn [remaining]. now rewrite Hlen.
    + intros ->. destruct scheduled; [now apply Hne | discriminate Hlen].
  - intros Hn. rewrite Hless.
    + split; [reflexivity | apply side_effects_no_done].
    + subst st. cbn [remaining]. now rewrite Hlen.
Qed.

(** C3, as the code has it.  The rules compiled from a configuration and
    the match set not empty, a call of [intercept] sets the timers of the
    matches one after the other, each delivering the response and the PAAPI
    configs computed for its match, and calls nothing itself.  When all
    matches are reached (as they are when the call returns), then in
    whatever order the timers fire, so for any delays, the trace is the
    side effects of all the deliveries followed by a single call of
    [done].  When synthesizing a match throws, the call ends with that
    exception, the timers set for the matches before it fire all the same,
    and [done] is not called. *)
Theorem done_after_all_scheduled_deliveries
    (config : value) (rules : list Rule) (logged : list log_entry)
    (bids0 bidRequest0 bs : value) (matched : list Match) (remainder : list value)
    (sched : Scheduled) (res : result Outcome) :
  updateConfig config = Ok (rules, logged) ->
  bidsOrDefault bids0 bidRequest0 = Ok bs ->
  matchAll rules bs bidRequest0 = Ok (matched, remainder) ->
  matched <> [] ->
  interceptCall rules bids0 bidRequest0 = (sched, res) ->
  exists reached rest,
    matched = reached ++ rest
    /\ Forall2 (delivers bidRequest0) reached (timers sched)
    /\ trace (start sched) = []
    /\ (forall out, res = Ok out -> rest = [])
    /\ (forall m rest',
          rest = m :: rest' ->
          exists e, schedule bidRequest0 m = Throw e /\ res = Throw e)
    /\ forall order,
        Permutation order (timers sched) ->
        (rest = [] ->
         trace (run (captured sched) order (start sched))
         = flat_map (side_effects (captured sched)) order ++ [DoneCalled]
         /\ count_done (trace (run (captured sched) order (start sched))) = 1)
        /\ (rest <> [] ->
            trace (run (captured sched) order (start sched))
            = flat_map (side_effects (captured sched)) order
            /\ count_done (trace (run (captured sched) order (start sched))) = 0).
Proof.
  intros Hcfg Hbids Hall Hne H.
  unfold interceptCall in H. rewrite Hbids, Hall in H.
  assert (Hpos : (0 <? List.length matched)%nat = true)
    by (destruct matched; [contradiction | reflexivity]).
  rewrite Hpos in H.
  destruct (scheduleAll bidRequest0 matched []) as [set thrown] eqn:Hset.
  destruct (scheduleAll_reached _ _ _ _ _ Hset)
    as (reached & rest & scheduled & Hsplit & Hmap & Hscheduled & Hthrown).
  simpl in Hscheduled. subst set.
  assert (Hseq : Forall (fun m => paapi_sequences (m_rule m)) reached).
  { destruct bs; try discriminate Hall.
    destruct (matchAll_outcome _ _ _ _ _ Hall) as (_ & _ & Hby).
    apply matched_rules_in in Hby.
    pose proof (updateConfig_sequences _ _ _ Hcfg) as Hrules.
    rewrite Forall_forall in Hrules. rewrite Hsplit in Hby.
    apply Forall_app in Hby. destruct Hby as (Hby & _).
    eapply Forall_impl; [| exact Hby]. intros x Hx. apply Hrules. exact Hx. }
  pose proof (schedule_all _ _ Hseq _ Hmap) as HF2.
  assert (Hdel : Forall is_delivery (map fst scheduled))
    by (clear - HF2; induction HF2; constructor; eauto using delivers_is_delivery).
  assert (Hlen : List.length (map fst scheduled) = List.length reached)
    by (symmetry; eapply Forall2_length; exact HF2).
  assert (Hrun : forall request order,
             Permutation order (map fst scheduled) ->
             (rest = [] ->
              trace (run request order
                       {| remaining := Z.of_nat (List.length matched); trace := [] |})
              = flat_map (side_effects request) order ++ [DoneCalled]
              /\ count_done
                   (trace (run request order
                             {| remaining := Z.of_nat (List.length matched);
                                trace := [] |})) = 1)
             /\ (rest <> [] ->
                 trace (run request order
                          {| remaining := Z.of_nat (List.length matched); trace := [] |})
                 = flat_map (side_effects request) order
                 /\ count_done
                      (trace (run request order
                                {| remaining := Z.of_nat (List.length matched);
                                   trace := [] |})) = 0)).
  { intros request order Hperm.
    destruct (run_scheduled request (map fst scheduled)
                (Z.of_nat (List.length matched)) order Hdel Hperm) as (Hall' & Hless).
    split.
    - intros ->. rewrite app_nil_r in Hsplit. subst reached. apply Hall'.
      + now rewrite Hlen.
      + intros Hnil. rewrite Hnil in Hlen. destruct matched; [contradiction | discriminate].
    - intros Hrest. apply Hless. rewrite Hlen, Hsplit, length_app.
      destruct rest; [contradiction | simpl; lia]. }
  exists reached, rest.
  destruct thrown as [e |].
  - destruct Hthrown as (m & rest' & -> & Hm).
    injection H as <- <-. cbn [timers captured start numRequiredCalls].
    split; [exact Hsplit | split; [exact HF2 | split; [reflexivity | split; [| split]]]].
    + intros out Hout. discriminate Hout.
    + intros m' rest'' E. injection E as <- <-. exists e. auto.
    + intros order Hperm. apply Hrun. exact Hperm.
  - subst rest.
    destruct (setBids (deepClone bidRequest0) remainder) as [request | e];
      injection H as <- <-; cbn [timers captured start numRequiredCalls];
      (split; [exact Hsplit | split; [exact HF2 | split; [reflexivity | split; [| split]]]]);
      try (intros out _; reflexivity);
      try (intros m' rest'' E; discriminate E);
      intros order Hperm; apply Hrun; exact Hperm.
Qed.


Lemma filter_none_all {A} (f : A -> bool) (l : list A) :
  filter f l = [] -> filter (fun a => negb (f a)) l = l.
Proof.
  induction l as [| a l IH]; simpl; [reflexivity |].
  destruct (f a); simpl; [discriminate | intros H; now rewrite IH].
Qed.

(** C9. When no bid of the batch matches a rule, [intercept] returns the
    batch it was given (or [bidRequest.bids] when none was given) and the
    request it was given, both as they were; nothing is called before it
    returns; the one timer it has set runs [done] after a delay of zero,
    and when that timer fires [done] has been called exactly once. *)
Theorem zero_match_fast_path
    (rules : list Rule) (bids0 bidRequest0 bs : value) (remainder : list value) :
  bidsOrDefault bids0 bidRequest0 = Ok bs ->
  matchAll rules bs bidRequest0 = Ok ([], remainder) ->
  exists sched,
    intercept rules bids0 bidRequest0 = Ok ({| bids := bs; bidRequest := bidRequest0 |}, sched)
    /\ (Js.nullish bids0 = false -> bs = bids0)
    /\ (Js.nullish bids0 = true -> Js.get bidRequest0 "bids" = Ok bs)
    /\ bs = VArr remainder
    /\ timers sched = [ {| t_task := Done; t_delay := VNum 0 |} ]
    /\ trace (start sched) = []
    /\ forall order,
        Permutation order (timers sched) ->
        trace (run (captured sched) order (start sched)) = [DoneCalled]
        /\ count_done (trace (run (captured sched) order (start sched))) = 1.
Proof.
  intros Hbids Hall. rewrite intercept_unfold. rewrite Hbids. simpl. rewrite Hall. simpl.
  eexists. split; [reflexivity |]. simpl.
  split; [| split; [| split; [| split; [reflexivity | split; [reflexivity |]]]]].
  - intros Hn. unfold bidsOrDefault in Hbids. rewrite Hn in Hbids. now injection Hbids.
  - intros Hn. unfold bidsOrDefault in Hbids. now rewrite Hn in Hbids.
  - destruct bs; try discriminate Hall.
    destruct (matchAll_outcome _ _ _ _ _ Hall) as (Hm & Hr & _).
    simpl in Hm. symmetry in Hm.
    rewrite (filter_none_all _ _ Hm) in Hr. now subst.
  - intros order Hperm. apply Permutation_sym, Permutation_length_1_inv in Hperm.
    subst order. split; reflexivity.
Qed.

(** ** Merging and defaulting *)

Lemma mergeValue_obj ops bps :
  mergeValue (VObj ops) (VObj bps) = VObj (mergeProps ops bps).
Proof.
  revert bps. induction ops as [| [k v] rest IH]; intros bps; [reflexivity |].
  change (mergeValue (VObj ((k, v) :: rest)) (VObj bps))
    with (mergeValue (VObj rest) (VObj (Js.set k (mergeValue v (field k bps)) bps))).
  rewrite IH. reflexivity.
Qed.

Lemma mergeValue_replaces override base :
  isPlainObject override = false \/ isPlainObject base = false ->
  mergeValue override base = override.
Proof.
  intros [H | H].
  - destruct override; try reflexivity. discriminate H.
  - destruct override; try reflexivity. destruct base; try reflexivity. discriminate H.
Qed.

Lemma mergeDeep_obj target ops : mergeDeep target (VObj ops) = mergeProps ops target.
Proof. unfold mergeDeep. now rewrite mergeValue_obj. Qed.

Lemma mergeDeep_other target source :
  isPlainObject source = false -> mergeDeep target source = target.
Proof.
  intros H. unfold mergeDeep. rewrite mergeValue_replaces by auto.
  destruct source; try reflexivity. discriminate H.
Qed.

Lemma mergeProps_untouched k ops :
  Js.lookup k ops = None -> forall bps, Js.lookup k (mergeProps ops bps) = Js.lookup k bps.
Proof.
  induction ops as [| [k0 v0] rest IH]; simpl; intros H bps; [reflexivity |].
  destruct (String.eqb k k0) eqn:E; [discriminate H |].
  rewrite IH by exact H. apply lookup_set_other. now apply String.eqb_neq.
Qed.

Lemma lookup_not_in k ops : ~ In k (map fst ops) -> Js.lookup k ops = None.
Proof.
  induction ops as [| [k0 v0] rest IH]; simpl; intros H; [reflexivity |].
  destruct (String.eqb k k0) eqn:E.
  - apply String.eqb_eq in E. subst. tauto.
  - apply IH. tauto.
Qed.

Lemma mergeProps_override k v ops :
  NoDup (map fst ops) -> Js.lookup k ops = Some v ->
  forall bps, Js.lookup k (mergeProps ops bps) = Some (mergeValue v (field k bps)).
Proof.
  induction ops as [| [k0 v0] rest IH]; simpl; intros Hnd H bps; [discriminate H |].
  inversion Hnd as [| ? ? Hnotin Hnd']. subst.
  destruct (String.eqb k k0) eqn:E.
  - apply String.eqb_eq in E. subst k0. injection H as ->.
    rewrite mergeProps_untouched by now apply lookup_not_in.
    apply lookup_set_same.
  - rewrite (IH Hnd' H). unfold field at 1.
    rewrite lookup_set_other by now apply String.eqb_neq. reflexivity.
Qed.

Lemma mergeProps_keeps k ops :
  forall bps, Js.has_key k bps = true -> Js.has_key k (mergeProps ops bps) = true.
Proof.
  induction ops as [| [k0 v0] rest IH]; simpl; intros bps H; [exact H |].
  apply IH. now apply has_key_set.
Qed.

Lemma mergeDeep_keeps k target source :
  Js.has_key k target = true -> Js.has_key k (mergeDeep target source) = true.
Proof.
  intros H. destruct (isPlainObject source) eqn:E.
  - destruct source; try discriminate E. rewrite mergeDeep_obj. now apply mergeProps_keeps.
  - now rewrite mergeDeep_other.
Qed.

Lemma resolve_keeps bid response k v :
  augments -> Js.lookup k response = Some v -> Js.lookup k (resolve bid response) = Some v.
Proof.
  intros Haug H. unfold resolve.
  destruct (responseResolvers (field "mediaType" response)) as [resolver |] eqn:E.
  - eapply Haug; eauto.
  - exact H.
Qed.

Lemma replacer_generator replDef ruleNo :
  replDef <> VNull ->
  fst (replacer replDef ruleNo)
  = fun bid args =>
      response <- responseDefaults bid ;;
      template <- fst (overrideOf (Js.or replDef (VObj [])) ruleNo) (bid :: args) ;;
      Ok (VObj (Js.set "isDebug" (VBool true) (resolve bid (mergeDeep response template)))).
Proof.
  intros Hne. unfold replacer.
  destruct (overrideOf (Js.or replDef (VObj [])) ruleNo) as [override logs].
  destruct replDef; try reflexivity. contradiction.
Qed.

Lemma get_get_opt v k x : Js.get v k = Ok x -> Js.get_opt v k = x.
Proof. unfold Js.get_opt. now intros ->. Qed.

Lemma get_returns v k : Js.nullish v = false -> exists x, Js.get v k = Ok x.
Proof.
  intros H. unfold Js.get.
  destruct v; try discriminate H; simpl;
    repeat match goal with
           | |- context [Js.lookup ?a ?b] => destruct (Js.lookup a b)
           | |- context [String.eqb ?a ?b] => destruct (String.eqb a b)
           end; eauto.
Qed.

Lemma responseDefaults_returns bid :
  Js.nullish bid = false -> exists defaults, responseDefaults bid = Ok defaults.
Proof.
  intros H. unfold responseDefaults.
  destruct (get_returns bid "bidId" H) as (x1 & ->).
  destruct (get_returns bid "mediaType" H) as (x2 & ->).
  destruct (get_returns bid "mediaTypes" H) as (x3 & ->).
  simpl. eauto.
Qed.

Lemma responseDefaults_fields bid defaults :
  responseDefaults bid = Ok defaults ->
  Js.lookup "requestId" defaults = Some (Js.get_opt bid "bidId")
  /\ (sized bid ->
      Js.has_key "width" defaults = true /\ Js.has_key "height" defaults = true).
Proof.
  unfold responseDefaults. intros H.
  inv_bind H. rename a into bidId. apply get_get_opt in Ha. rewrite Ha.
  inv_bind H. rename a into mt. apply get_get_opt in Ha0.
  inv_bind H. rename a into mts. apply get_get_opt in Ha1.
  injection H as <-. split.
  - destruct (negb (Js.truthy mt)); 
      repeat match goal with
             | |- context [match ?x with VArr _ => _ | _ => _ end] => destruct x
             | |- context [if ?b then _ else _] => destruct b
             end;
      repeat (rewrite lookup_set_other by discriminate); reflexivity.
  - unfold sized. rewrite Ha0, Ha1. intros (Hmt & Hsz). rewrite Hmt. cbn [negb].
    unfold field. simpl Js.lookup.
    destruct Hsz as [(-> & Harr) | (-> & Harr)]; simpl Js.strict_eq; cbv iota;
      match goal with
      | |- context [match ?x with VArr _ => _ | _ => _ end] =>
          destruct x; try discriminate Harr
      end;
      (split; [apply has_key_set; apply has_key_set_same | apply has_key_set_same]).
Qed.

(** C7. The synthesized response is the response defaults deep-merged with
    the evaluated override, post-processed and stamped [isDebug].  With
    post-processors that only add fields, every field of the merge other
    than the stamp is the response's field.  In the merge an override
    property that is not an object, or that meets a default that is not an
    object, wins; an object meeting an object is merged field by field;
    and a default the override does not mention stays as it was. *)
Theorem template_merge_precedence
    (replDef : value) (ruleNo : nat) (bid : value) (args : list value)
    (defaults : fields) (template : value) :
  replDef <> VNull ->
  augments ->
  responseDefaults bid = Ok defaults ->
  fst (overrideOf (Js.or replDef (VObj [])) ruleNo) (bid :: args) = Ok template ->
  exists response,
    fst (replacer replDef ruleNo) bid args = Ok (VObj response)
    /\ response = Js.set "isDebug" (VBool true) (resolve bid (mergeDeep defaults template))
    /\ (forall k v, k <> "isDebug" ->
                    Js.lookup k (mergeDeep defaults template) = Some v ->
                    Js.lookup k response = Some v)
    /\ (forall ops k v,
          template = VObj ops -> NoDup (map fst ops) -> Js.lookup k ops = Some v ->
          (isPlainObject v = false \/ isPlainObject (field k defaults) = false ->
           Js.lookup k (mergeDeep defaults template) = Some v)
          /\ (forall o b, v = VObj o -> Js.lookup k defaults = Some (VObj b) ->
                          Js.lookup k (mergeDeep defaults template)
                          = Some (VObj (mergeProps o b))))
    /\ (forall ops k,
          template = VObj ops -> Js.lookup k ops = None ->
          Js.lookup k (mergeDeep defaults template) = Js.lookup k defaults).
Proof.
  intros Hne Haug Hdef Htpl.
  eexists. split; [| split; [reflexivity | split; [| split]]].
  - rewrite (replacer_generator _ _ Hne). cbv beta. rewrite Hdef. simpl.
    rewrite Htpl. reflexivity.
  - intros k v Hk H. rewrite lookup_set_other by exact Hk.
    now apply resolve_keeps.
  - intros ops k v -> Hnd Hk. rewrite mergeDeep_obj. split.
    + intros Hv. rewrite (mergeProps_override _ _ _ Hnd Hk).
      now rewrite mergeValue_replaces.
    + intros o b -> Hb. rewrite (mergeProps_override _ _ _ Hnd Hk).
      unfold field. rewrite Hb. now rewrite mergeValue_obj.
  - intros ops k -> Hk. rewrite mergeDeep_obj. now apply mergeProps_untouched.
Qed.

Lemma has_key_lookup k ps : Js.has_key k ps = true <-> exists v, Js.lookup k ps = Some v.
Proof.
  unfold Js.has_key. destruct (Js.lookup k ps) as [v |]; split; intros H;
    try discriminate H; eauto.
  destruct H as (v & H). discriminate H.
Qed.

Lemma stamped_keeps bid merged k :
  augments -> k <> "isDebug" -> Js.has_key k merged = true ->
  Js.has_key k (Js.set "isDebug" (VBool true) (resolve bid merged)) = true.
Proof.
  intros Haug Hk H. apply has_key_lookup in H. destruct H as (v & Hv).
  apply has_key_lookup. exists v.
  rewrite lookup_set_other by exact Hk. now apply resolve_keeps.
Qed.

(** C1, as the code has it.  The generator returns [null] exactly for a
    [then] that is explicitly [null].  Otherwise, with post-processors that
    only add fields, what it returns is an object that has [requestId] and
    [isDebug: true]; it has [width] and [height] when the bid sets no media
    type of its own, the type inferred for it is banner or video and the
    size resolved for that type is an array.  It does return for every bid
    that is an object, when the override template is evaluated without an
    exception. *)
Theorem replace_null_or_defaulted
    (replDef : value) (ruleNo : nat) (bid : value) (args : list value) :
  augments ->
  (replDef = VNull -> fst (replacer replDef ruleNo) bid args = Ok VNull)
  /\ (forall v,
        fst (replacer replDef ruleNo) bid args = Ok v ->
        (replDef = VNull /\ v = VNull)
        \/ (replDef <> VNull
            /\ exists response,
                v = VObj response
                /\ Js.has_key "requestId" response = true
                /\ Js.lookup "isDebug" response = Some (VBool true)
                /\ (sized bid ->
                    Js.has_key "width" response = true
                    /\ Js.has_key "height" response = true)))
  /\ (replDef <> VNull ->
      Js.nullish bid = false ->
      (exists template,
          fst (overrideOf (Js.or replDef (VObj [])) ruleNo) (bid :: args) = Ok template) ->
      exists response, fst (replacer replDef ruleNo) bid args = Ok (VObj response)).
Proof.
  intros Haug. split; [| split].
  - intros ->. reflexivity.
  - intros v H.
    assert (Hdec : replDef = VNull \/ replDef <> VNull)
      by (destruct replDef; auto; right; discriminate).
    destruct Hdec as [-> | Hne].
    + left. simpl in H. injection H as <-. auto.
    + right. split; [exact Hne |].
      rewrite (replacer_generator _ _ Hne) in H. cbv beta in H.
      inv_bind H. rename a into defaults. inv_bind H. rename a into template.
      injection H as <-.
      destruct (responseDefaults_fields _ _ Ha) as (Hid & Hsz).
      eexists. split; [reflexivity | split; [| split]].
      * apply stamped_keeps; auto; [discriminate |].
        apply mergeDeep_keeps. apply has_key_lookup. eauto.
      * apply lookup_set_same.
      * intros Hs. destruct (Hsz Hs) as (Hw & Hh).
        split; apply stamped_keeps; auto; try discriminate; now apply mergeDeep_keeps.
  - intros Hne Hbid (template & Htpl).
    destruct (responseDefaults_returns _ Hbid) as (defaults & Hdef).
    rewrite (replacer_generator _ _ Hne). cbv beta. rewrite Hdef. simpl. rewrite Htpl.
    simpl. eauto.
Qed.

(** ** More on the matcher *)

Lemma bind_ret {A} (m : result A) : (a <- m ;; Ok a) = m.
Proof. now destruct m. Qed.

Lemma get_on_object v k : Js.nullish v = false -> Js.get v k = Ok (Js.get_opt v k).
Proof.
  intros H. destruct (get_returns v k H) as (x & Hx).
  now rewrite (get_get_opt _ _ _ Hx).
Qed.

Lemma get_on_nullish v k : Js.nullish v = true -> Js.get v k = Throw TypeError.
Proof. destruct v; try discriminate; reflexivity. Qed.

Lemma matches_obj ps candidate args :
  matches (VObj ps) candidate args = matchProps candidate args ps.
Proof. reflexivity. Qed.

Lemma matchProps_app candidate args ps qs :
  matchProps candidate args (ps ++ qs)
  = b1 <- matchProps candidate args ps ;;
    b2 <- matchProps candidate args qs ;;
    Ok (b1 && b2).
Proof.
  induction ps as [| [key val] ps IH]; simpl.
  - now rewrite bind_ret.
  - destruct (matchEntry (matches val) candidate args key val) as [b | e]; simpl; [| reflexivity].
    rewrite IH.
    destruct (matchProps candidate args ps) as [b1 | e1]; simpl; [| reflexivity].
    destruct (matchProps candidate args qs) as [b2 | e2]; simpl; [| reflexivity].
    now rewrite andb_assoc.
Qed.

(** X1. An object matcher evaluates every field before it answers: on the
    fields [ps ++ qs] it answers the conjunction of its answers on [ps] and
    on [qs], and an exception raised by a later field is raised although an
    earlier field has already failed to match. *)
Theorem object_matcher_evaluates_every_field
    (ps qs : fields) (candidate : value) (args : list value) :
  matches (VObj (ps ++ qs)) candidate args
  = (b1 <- matches (VObj ps) candidate args ;;
     b2 <- matches (VObj qs) candidate args ;;
     Ok (b1 && b2))
  /\ (forall e,
        matches (VObj ps) candidate args = Ok false ->
        matches (VObj qs) candidate args = Throw e ->
        matches (VObj (ps ++ qs)) candidate args = Throw e).
Proof.
  rewrite !matches_obj. split.
  - apply matchProps_app.
  - intros e H1 H2. now rewrite matchProps_app, H1, H2.
Qed.

Lemma matchProps_scalars candidate args ps :
  Js.nullish candidate = false ->
  forallb (fun kv => scalar (snd kv)) ps = true ->
  matchProps candidate args ps
  = Ok (forallb (fun kv => Js.strict_eq (Js.get_opt candidate (fst kv)) (snd kv)) ps).
Proof.
  intros Hc. induction ps as [| [key val] ps IH]; simpl; intros H; [reflexivity |].
  apply andb_true_iff in H. destruct H as (Hv & Hps).
  unfold matchEntry. rewrite (get_on_object _ _ Hc). simpl.
  rewrite (IH Hps). destruct val; try discriminate Hv; reflexivity.
Qed.

(** X2. An object matcher whose values are all scalars (numbers, strings,
    booleans, [undefined]) answers, for a candidate that is not [null] or
    [undefined], whether every named field of the candidate is strictly
    equal to the value asked for; a field the candidate lacks counts as
    [undefined]. *)
Theorem scalar_matcher_compares_fields
    (ps : fields) (candidate : value) (args : list value) :
  Js.nullish candidate = false ->
  forallb (fun kv => scalar (snd kv)) ps = true ->
  matches (VObj ps) candidate args
  = Ok (forallb (fun kv => Js.strict_eq (Js.get_opt candidate (fst kv)) (snd kv)) ps).
Proof. intros. rewrite matches_obj. now apply matchProps_scalars. Qed.

Lemma matchProps_cons candidate args key val rest :
  matchProps candidate args ((key, val) :: rest)
  = (b <- matchEntry (matches val) candidate args key val ;;
     bs <- matchProps candidate args rest ;;
     Ok (b && bs)).
Proof. reflexivity. Qed.

Lemma matchProps_nullish candidate args key val rest :
  Js.nullish candidate = true ->
  matchProps candidate args ((key, val) :: rest) = Throw TypeError.
Proof.
  intros H. simpl. unfold matchEntry. now rewrite (get_on_nullish _ _ H).
Qed.

(** X3. Where the object matcher throws by itself.  With at least one field
    to check it throws a [TypeError] on a candidate that is [null] or
    [undefined].  Hence a nested object matcher with a field to check
    throws when the candidate lacks the field it is nested under; and a
    matcher that asks for a field to be [null] always throws, since [null]
    is taken for a nested matcher. *)
Theorem object_matcher_throws
    (key : string) (val : value) (rest : fields) (candidate : value) (args : list value) :
  (Js.nullish candidate = true ->
   matches (VObj ((key, val) :: rest)) candidate args = Throw TypeError)
  /\ (forall key' val' inner,
        Js.nullish candidate = false ->
        Js.nullish (Js.get_opt candidate key) = true ->
        val = VObj ((key', val') :: inner) ->
        matches (VObj ((key, val) :: rest)) candidate args = Throw TypeError)
  /\ (Js.nullish candidate = false ->
      val = VNull ->
      matches (VObj ((key, val) :: rest)) candidate args = Throw TypeError).
Proof.
  rewrite matches_obj. split; [| split].
  - intros H. now apply matchProps_nullish.
  - intros key' val' inner Hc Hmiss ->. rewrite matchProps_cons.
    unfold matchEntry. rewrite (get_on_object _ _ Hc). cbn [bind].
    rewrite matches_obj, (matchProps_nullish _ _ _ _ _ Hmiss). reflexivity.
  - intros Hc ->. rewrite matchProps_cons.
    unfold matchEntry. rewrite (get_on_object _ _ Hc). reflexivity.
Qed.

Lemma match_skip pre r post candidate args :
  rejects candidate args r ->
  match_ (pre ++ r :: post) candidate args = match_ (pre ++ post) candidate args.
Proof.
  intros (v & Hv & Tv). induction pre as [| p pre IH]; simpl.
  - rewrite Hv. simpl. now rewrite Tv.
  - destruct (rule_match p candidate args) as [w | e]; simpl; [| reflexivity].
    destruct (Js.truthy w); [reflexivity | exact IH].
Qed.

(** X4. A [when] that is neither a function nor of object type
    ([undefined], a number, a string, a boolean) is logged as an invalid
    definition under the rule's number and disables the rule: its
    predicate answers [false] for everything, and [match] answers as if the
    rule were not in the list. *)
Theorem malformed_when_disables_rule
    (ruleDef : value) (ruleNo : nat) (r : Rule) (logged : list log_entry) (when : value) :
  rule ruleDef ruleNo = Ok (r, logged) ->
  Js.get ruleDef "when" = Ok when ->
  Js.is_function when = false ->
  Js.is_object_type when = false ->
  In (LogError "when" ruleNo) logged
  /\ (forall candidate args, rule_match r candidate args = Ok (VBool false))
  /\ (forall pre post candidate args,
        match_ (pre ++ r :: post) candidate args = match_ (pre ++ post) candidate args).
Proof.
  intros H Hw Hf Ho. unfold rule in H. rewrite Hw in H. simpl in H.
  inv_bind H. inv_bind H. inv_bind H.
  assert (Hm : matcher when ruleNo = (fun _ _ => Ok (VBool false), [LogError "when" ruleNo])).
  { unfold matcher. destruct when; try discriminate Hf; try discriminate Ho; reflexivity. }
  rewrite Hm in H.
  destruct (replacer a ruleNo) as [rep l2].
  destruct (paapiReplacer (Js.or a1 (VArr [])) ruleNo) as [pa l3].
  injection H as <- <-. simpl.
  split; [left; reflexivity | split; [reflexivity |]].
  intros pre post candidate args. apply match_skip. exists (VBool false). auto.
Qed.




(** ** More on the replacer *)

Lemma value_nested_ind (P : value -> Prop) :
  P VUndef -> P VNull -> (forall b, P (VBool b)) -> (forall q, P (VNum q)) ->
  (forall s, P (VStr s)) ->
  (forall xs, Forall P xs -> P (VArr xs)) ->
  (forall ps, Forall (fun kv => P (snd kv)) ps -> P (VObj ps)) ->
  (forall f, P (VFun f)) -> (forall r, P (VRegExp r)) ->
  forall v, P v.
Proof.
  intros HU HN HB HQ HS HA HO HF HR.
  fix IH 1. intros [| | b | q | s | xs | ps | f | r].
  - exact HU.
  - exact HN.
  - apply HB.
  - apply HQ.
  - apply HS.
  - apply HA. induction xs as [| x xs IHxs]; constructor; [apply IH | exact IHxs].
  - apply HO. induction ps as [| [k x] ps IHps]; constructor; [apply IH | exact IHps].
  - apply HF.
  - apply HR.
Qed.

Lemma replFn_obj ps args :
  replFn (VObj ps) args = (out <- replProps args ps [] ;; Ok (VObj out)).
Proof. reflexivity. Qed.

Lemma replFn_arr xs args :
  replFn (VArr xs) args = (out <- replItems args xs ;; Ok (VArr out)).
Proof. reflexivity. Qed.

Lemma mergeDeep_empty target : mergeDeep target (VObj []) = target.
Proof. reflexivity. Qed.

Lemma replacer_non_object replDef ruleNo bid args :
  Js.is_function replDef = false -> Js.is_object_type replDef = false ->
  fst (replacer replDef ruleNo) bid args = defaultsOnly bid.
Proof.
  intros Hf Ho.
  assert (Hne : replDef <> VNull) by (intros ->; discriminate Ho).
  rewrite (replacer_generator _ _ Hne). unfold defaultsOnly.
  destruct (responseDefaults bid) as [d | e]; simpl; [| reflexivity].
  assert (Hov : fst (overrideOf (Js.or replDef (VObj [])) ruleNo) (bid :: args) = Ok (VObj [])).
  { unfold Js.or. destruct (Js.truthy replDef) eqn:T; [| reflexivity].
    destruct replDef; try discriminate Hf; try discriminate Ho; try discriminate T; reflexivity. }
  rewrite Hov. simpl. now rewrite mergeDeep_empty.
Qed.

(** X6. A [then] that is neither [null], a function nor of object type
    (omitted, a number, a string, a boolean) gives the generator of the
    defaults alone: the response defaults, post-processed and stamped.
    The definition error is logged only when the value is truthy: for [0],
    [false] and the empty string nothing is logged. *)
Theorem non_object_then_gives_defaults (replDef : value) (ruleNo : nat) :
  Js.is_function replDef = false ->
  Js.is_object_type replDef = false ->
  (forall bid args, fst (replacer replDef ruleNo) bid args = defaultsOnly bid)
  /\ snd (replacer replDef ruleNo)
     = (if Js.truthy replDef then [LogError "then" ruleNo] else []).
Proof.
  intros Hf Ho. split.
  - intros bid args. now apply replacer_non_object.
  - unfold replacer, Js.or.
    destruct replDef; try discriminate Hf; try discriminate Ho; simpl;
      try reflexivity.
    + destruct b; reflexivity.
    + destruct (Qeq_bool q 0); reflexivity.
    + destruct (String.eqb s ""); reflexivity.
Qed.

Lemma set_keys k k' x ps :
  In k (map fst (Js.set k' x ps)) <-> k = k' \/ In k (map fst ps).
Proof.
  induction ps as [| [k0 v] ps IH]; simpl.
  - intuition congruence.
  - destruct (String.eqb k' k0) eqn:E; simpl.
    + apply String.eqb_eq in E. subst. intuition.
    + rewrite IH. intuition.
Qed.

Lemma set_fresh k x ps :
  ~ In k (map fst ps) -> Js.set k x ps = ps ++ [(k, x)].
Proof.
  induction ps as [| [k0 v] ps IH]; simpl; intros H; [reflexivity |].
  destruct (String.eqb k k0) eqn:E.
  - apply String.eqb_eq in E. subst. tauto.
  - rewrite IH by tauto. reflexivity.
Qed.

Lemma set_NoDup k x ps : NoDup (map fst ps) -> NoDup (map fst (Js.set k x ps)).
Proof.
  induction ps as [| [k0 v] ps IH]; simpl; intros H.
  - constructor; [intros [] | constructor].
  - inversion H as [| ? ? Hnotin Hnd]. subst.
    destruct (String.eqb k k0) eqn:E; simpl.
    + exact H.
    + constructor; [| auto]. rewrite set_keys. intros [-> | Hin]; [| contradiction].
      now rewrite String.eqb_refl in E.
Qed.

Lemma distinct_cons k ks :
  distinct (k :: ks) = true -> ~ In k ks /\ distinct ks = true.
Proof.
  simpl. intros H. apply andb_true_iff in H. destruct H as (Hk & Hks).
  split; [| exact Hks]. intros Hin. apply negb_true_iff in Hk.
  assert (E : existsb (String.eqb k) ks = true)
    by (apply existsb_exists; exists k; split; [exact Hin | apply String.eqb_refl]).
  congruence.
Qed.

Lemma replProps_keys args ps :
  forall res out,
    replProps args ps res = Ok out ->
    NoDup (map fst res) ->
    NoDup (map fst out)
    /\ forall k, In k (map fst out) <-> In k (map fst res) \/ In k (map fst ps).
Proof.
  induction ps as [| [key val] ps IH]; simpl; intros res out H Hnd.
  - injection H as <-. split; [exact Hnd | intuition].
  - inv_bind H. destruct (IH _ _ H (set_NoDup key a res Hnd)) as (Hout & Hkeys).
    split; [exact Hout |]. intros k. rewrite Hkeys, set_keys. intuition.
Qed.

Lemma replItems_length args xs :
  forall ys, replItems args xs = Ok ys -> List.length ys = List.length xs.
Proof.
  induction xs as [| x xs IH]; simpl; intros ys H.
  - now injection H as <-.
  - inv_bind H. inv_bind H. injection H as <-. simpl. now rewrite (IH _ Ha0).
Qed.

(** X7. The template walker keeps the shape of a template: an object
    template evaluates to an object with the same set of keys, each once,
    and an array template to an array of the same length. *)
Theorem template_shape_is_kept (args : list value) (v : value) :
  (forall ps,
      replFn (VObj ps) args = Ok v ->
      exists out,
        v = VObj out
        /\ NoDup (map fst out)
        /\ forall k, In k (map fst out) <-> In k (map fst ps))
  /\ (forall xs,
         replFn (VArr xs) args = Ok v ->
         exists ys, v = VArr ys /\ List.length ys = List.length xs).
Proof.
  split.
  - intros ps H. rewrite replFn_obj in H. inv_bind H. injection H as <-.
    destruct (replProps_keys _ _ _ _ Ha (NoDup_nil _)) as (Hnd & Hkeys).
    exists a. split; [reflexivity | split; [exact Hnd |]].
    intros k. rewrite Hkeys. simpl. tauto.
  - intros xs H. rewrite replFn_arr in H. inv_bind H. injection H as <-.
    exists a. split; [reflexivity | now apply (replItems_length args)].
Qed.

(** [copied t]: evaluating [t] as a value of a template gives [t]. *)
Lemma replItems_copied args xs :
  Forall (fun x => literal x = true -> replEntry (replFn x) args x = Ok x) xs ->
  forallb literal xs = true ->
  replItems args xs = Ok xs.
Proof.
  induction 1 as [| x xs Hx _ IH]; simpl; intros H; [reflexivity |].
  apply andb_true_iff in H. destruct H as (Hl & Hls).
  now rewrite (Hx Hl), (IH Hls).
Qed.

Lemma replProps_copied args ps :
  Forall (fun kv => literal (snd kv) = true ->
                    replEntry (replFn (snd kv)) args (snd kv) = Ok (snd kv)) ps ->
  forallb (fun kv => literal (snd kv)) ps = true ->
  distinct (map fst ps) = true ->
  forall res,
    (forall k, In k (map fst ps) -> ~ In k (map fst res)) ->
    replProps args ps res = Ok (res ++ ps).
Proof.
  induction 1 as [| [key val] ps Hx _ IH]; simpl; intros Hl Hd res Hfresh.
  - now rewrite app_nil_r.
  - apply andb_true_iff in Hl. destruct Hl as (Hv & Hvs).
    apply distinct_cons in Hd. destruct Hd as (Hkey & Hd).
    simpl in Hx. rewrite (Hx Hv). simpl.
    rewrite set_fresh by (apply Hfresh; now left).
    rewrite (IH Hvs Hd).
    + now rewrite <- app_assoc.
    + intros k Hk. rewrite map_app, in_app_iff. simpl.
      intros [Hin | [<- | []]]; [| contradiction].
      apply (Hfresh k); [now right | exact Hin].
Qed.

Lemma literal_copied args t :
  literal t = true -> replEntry (replFn t) args t = Ok t.
Proof.
  induction t using value_nested_ind; intros Hl; try reflexivity; try discriminate Hl.
  - unfold replEntry. rewrite replFn_arr, (replItems_copied args xs H Hl). reflexivity.
  - unfold replEntry. simpl in Hl. apply andb_true_iff in Hl. destruct Hl as (Hd & Hl).
    rewrite replFn_obj, (replProps_copied args ps H Hl Hd []); [reflexivity |].
    intros k _ [].
Qed.

(** X8. A template that is an object or an array and holds no function and
    no regular expression (the keys of each object distinct) evaluates to
    itself, whatever the bid and the context. *)
Theorem literal_template_is_copied (t : value) (args : list value) :
  literal t = true ->
  Js.isArray t = true \/ isPlainObject t = true ->
  replFn t args = Ok t.
Proof.
  intros Hl Hshape. pose proof (literal_copied args t Hl) as H.
  destruct t; try (destruct Hshape as [E | E]; discriminate E); exact H.
Qed.

Lemma replItems_throws args xs e :
  Forall (fun x => forall e, replEntry (replFn x) args x = Throw e ->
                             exists f, In f (calledIn x) /\ call f args = Throw e) xs ->
  replItems args xs = Throw e ->
  exists f, In f (flat_map calledIn xs) /\ call f args = Throw e.
Proof.
  induction 1 as [| x xs Hx _ IH]; simpl; intros H; [discriminate H |].
  destruct (replEntry (replFn x) args x) as [y | e'] eqn:E; simpl in H.
  - destruct (replItems args xs) as [ys | e'']; simpl in H; [discriminate H |].
    injection H as ->. destruct (IH eq_refl) as (f & Hf & Hc).
    exists f. split; [apply in_or_app; now right | exact Hc].
  - injection H as ->. destruct (Hx _ eq_refl) as (f & Hf & Hc).
    exists f. split; [apply in_or_app; now left | exact Hc].
Qed.

Lemma replProps_throws args ps e :
  Forall (fun kv => forall e, replEntry (replFn (snd kv)) args (snd kv) = Throw e ->
                              exists f, In f (calledIn (snd kv)) /\ call f args = Throw e)
    ps ->
  forall res,
    replProps args ps res = Throw e ->
    exists f, In f (flat_map (fun kv => calledIn (snd kv)) ps) /\ call f args = Throw e.
Proof.
  induction 1 as [| [key val] ps Hx _ IH]; simpl; intros res H; [discriminate H |].
  simpl in Hx. destruct (replEntry (replFn val) args val) as [y | e'] eqn:E; simpl in H.
  - destruct (IH _ H) as (f & Hf & Hc).
    exists f. split; [apply in_or_app; now right | exact Hc].
  - injection H as ->. destruct (Hx _ eq_refl) as (f & Hf & Hc).
    exists f. split; [apply in_or_app; now left | exact Hc].
Qed.

Lemma replEntry_throws args t e :
  replEntry (replFn t) args t = Throw e ->
  exists f, In f (calledIn t) /\ call f args = Throw e.
Proof.
  revert e. induction t using value_nested_ind; intros e He; unfold replEntry in He;
    try discriminate He.
  - rewrite replFn_arr in He.
    destruct (replItems args xs) as [ys | e'] eqn:E; simpl in He; [discriminate He |].
    injection He as ->. simpl. eapply replItems_throws; eauto.
  - rewrite replFn_obj in He.
    destruct (replProps args ps []) as [out | e'] eqn:E; simpl in He; [discriminate He |].
    injection He as ->. simpl. eapply replProps_throws; eauto.
  - exists f. split; [now left | exact He].
Qed.

Lemma responseDefaults_throws bid e :
  responseDefaults bid = Throw e -> Js.nullish bid = true /\ e = TypeError.
Proof.
  intros H. destruct (Js.nullish bid) eqn:N.
  - split; [reflexivity |]. unfold responseDefaults in H.
    rewrite (get_on_nullish _ _ N) in H. simpl in H. now injection H.
  - destruct (responseDefaults_returns _ N) as (d & Hd). congruence.
Qed.

Lemma override_throws replDef ruleNo args e :
  fst (overrideOf (Js.or replDef (VObj [])) ruleNo) args = Throw e ->
  exists f, In f (calledIn replDef) /\ call f args = Throw e.
Proof.
  intros O. unfold Js.or in O.
  destruct (Js.truthy replDef) eqn:T; [| discriminate O].
  unfold overrideOf in O.
  destruct replDef as [| | b | q | s | xs | ps | f | r]; try discriminate T;
    cbn [Js.is_object_type Js.typeof negb fst] in O; try discriminate O.
  - apply (replEntry_throws args (VArr xs)). exact O.
  - apply (replEntry_throws args (VObj ps)). exact O.
  - exists f. split; [now left | exact O].
Qed.

(** X9. Evaluating a [then] definition raises no exception of its own:
    whatever the evaluation throws on the arguments [(bid, ...context)] was
    thrown by a function of that definition (the definition itself, or a
    function-valued entry of the template) called with these very
    arguments.  On a bid that is not [null] or [undefined] the response
    generator throws that exception in turn, and it throws a [TypeError]
    on a bid that is. *)
Theorem then_throws_only_what_its_functions_throw
    (replDef : value) (ruleNo : nat) (bid : value) (args : list value) (e : exn) :
  (fst (overrideOf (Js.or replDef (VObj [])) ruleNo) (bid :: args) = Throw e ->
   exists f, In f (calledIn replDef) /\ call f (bid :: args) = Throw e)
  /\ (replDef <> VNull ->
      Js.nullish bid = false ->
      fst (overrideOf (Js.or replDef (VObj [])) ruleNo) (bid :: args) = Throw e ->
      fst (replacer replDef ruleNo) bid args = Throw e)
  /\ (replDef <> VNull ->
      Js.nullish bid = true ->
      fst (replacer replDef ruleNo) bid args = Throw TypeError).
Proof.
  split; [apply override_throws | split].
  - intros Hne N O. rewrite (replacer_generator _ _ Hne). cbv beta.
    destruct (responseDefaults_returns _ N) as (d & ->). simpl. now rewrite O.
  - intros Hne N. rewrite (replacer_generator _ _ Hne). cbv beta.
    unfold responseDefaults. now rewrite (get_on_nullish _ _ N).
Qed.

(** ** More on the defaults *)

(** X10. [responseDefaults] throws a [TypeError] exactly for a bid that is
    [null] or [undefined].  For any other bid the defaults begin with the
    same seven fields, [requestId] being the bid's [bidId], followed by
    nothing when the bid sets a media type of its own, else by
    [mediaType], or by [mediaType], [width] and [height]. *)
Theorem defaults_begin_with_the_fixed_fields (bid : value) :
  (Js.nullish bid = true -> responseDefaults bid = Throw TypeError)
  /\ (Js.nullish bid = false ->
      exists rest,
        responseDefaults bid = Ok (baseResponse (Js.get_opt bid "bidId") ++ rest)
        /\ (map fst rest = []
            \/ map fst rest = ["mediaType"]
            \/ map fst rest = ["mediaType"; "width"; "height"])
        /\ (map fst rest = [] <-> Js.truthy (Js.get_opt bid "mediaType") = true)).
Proof.
  split.
  - intros N. unfold responseDefaults. now rewrite (get_on_nullish _ _ N).
  - intros N. unfold responseDefaults. rewrite !(get_on_object _ _ N). cbn [bind].
    destruct (Js.truthy (Js.get_opt bid "mediaType")); cbn [negb].
    + exists []. split; [now rewrite app_nil_r | split; [now left | tauto]].
    + unfold field. simpl Js.set. simpl Js.lookup.
      match goal with
      | |- context [match ?size with VArr _ => _ | _ => _ end] => destruct size
      end;
        (eexists; split; [reflexivity | split; [simpl; tauto |]]);
        simpl; split; intros; discriminate.
Qed.

Lemma defaults_size bid mediaTypes kind dims :
  Js.nullish bid = false ->
  Js.truthy (Js.get_opt bid "mediaType") = false ->
  Js.get_opt bid "mediaTypes" = mediaTypes ->
  inferredMediaType mediaTypes = VStr kind ->
  (if String.eqb kind BANNER
   then firstSize mediaTypes "banner" "sizes" (pair_of 300 250)
   else if String.eqb kind VIDEO
        then firstSize mediaTypes "video" "playerSize" (pair_of 600 500)
        else VUndef) = VArr dims ->
  responseDefaults bid
  = Ok (baseResponse (Js.get_opt bid "bidId")
        ++ [("mediaType", VStr kind);
            ("width", nth 0 dims VUndef); ("height", nth 1 dims VUndef)]).
Proof.
  intros N T <- Hk Hsize. unfold responseDefaults.
  rewrite !(get_on_object _ _ N). cbn [bind]. rewrite T. cbn [negb].
  unfold field. simpl Js.set. simpl Js.lookup. rewrite Hk.
  cbn [Js.strict_eq]. rewrite Hsize. reflexivity.
Qed.

(** X11. How the size of the defaults is chosen, for a bid without a media
    type of its own.  Without declared capabilities the response is a
    banner of 300 x 250.  When the first declared capability is the banner
    one, width and height are the first two entries of its first size, and
    300 x 250 when it declares none; when it is the video one, they are
    those of its first player size, and 600 x 500 when it declares none. *)
Theorem defaults_take_the_first_declared_size (bid : value) :
  Js.nullish bid = false ->
  Js.truthy (Js.get_opt bid "mediaType") = false ->
  let gives kind w h :=
    responseDefaults bid
    = Ok (baseResponse (Js.get_opt bid "bidId")
          ++ [("mediaType", VStr kind); ("width", w); ("height", h)]) in
  (Js.nullish (Js.get_opt bid "mediaTypes") = true -> gives BANNER (VNum 300) (VNum 250))
  /\ (forall cap more,
         Js.get_opt bid "mediaTypes" = VObj ((BANNER, cap) :: more) ->
         (forall dims,
             Js.get_opt (Js.get_opt cap "sizes") "0" = VArr dims ->
             gives BANNER (nth 0 dims VUndef) (nth 1 dims VUndef))
         /\ (Js.nullish (Js.get_opt (Js.get_opt cap "sizes") "0") = true ->
             gives BANNER (VNum 300) (VNum 250)))
  /\ (forall cap more,
         Js.get_opt bid "mediaTypes" = VObj ((VIDEO, cap) :: more) ->
         (forall dims,
             Js.get_opt (Js.get_opt cap "playerSize") "0" = VArr dims ->
             gives VIDEO (nth 0 dims VUndef) (nth 1 dims VUndef))
         /\ (Js.nullish (Js.get_opt (Js.get_opt cap "playerSize") "0") = true ->
             gives VIDEO (VNum 600) (VNum 500))).
Proof.
  intros N T gives. subst gives. cbv beta. split; [| split].
  - intros Hn.
    apply (defaults_size bid _ BANNER [VNum 300; VNum 250] N T eq_refl).
    + unfold inferredMediaType, Js.coalesce. rewrite Hn. reflexivity.
    + cbn [String.eqb BANNER Ascii.eqb Bool.eqb]. unfold firstSize.
      destruct (Js.get_opt bid "mediaTypes"); try discriminate Hn; reflexivity.
  - intros cap more Hm. split.
    + intros dims Hd.
      apply (defaults_size bid _ BANNER dims N T eq_refl); rewrite Hm; [reflexivity |].
      cbn [String.eqb BANNER Ascii.eqb Bool.eqb]. unfold firstSize.
      change (Js.get_opt (VObj ((BANNER, cap) :: more)) "banner") with cap.
      change (Js.index_key 0) with "0". rewrite Hd. reflexivity.
    + intros Hn.
      apply (defaults_size bid _ BANNER [VNum 300; VNum 250] N T eq_refl);
        rewrite Hm; [reflexivity |].
      cbn [String.eqb BANNER Ascii.eqb Bool.eqb]. unfold firstSize.
      change (Js.get_opt (VObj ((BANNER, cap) :: more)) "banner") with cap.
      change (Js.index_key 0) with "0". unfold Js.coalesce. rewrite Hn. reflexivity.
  - intros cap more Hm. split.
    + intros dims Hd.
      apply (defaults_size bid _ VIDEO dims N T eq_refl); rewrite Hm; [reflexivity |].
      cbn [String.eqb BANNER VIDEO Ascii.eqb Bool.eqb]. unfold firstSize.
      change (Js.get_opt (VObj ((VIDEO, cap) :: more)) "video") with cap.
      change (Js.index_key 0) with "0". rewrite Hd. reflexivity.
    + intros Hn.
      apply (defaults_size bid _ VIDEO [VNum 600; VNum 500] N T eq_refl);
        rewrite Hm; [reflexivity |].
      cbn [String.eqb BANNER VIDEO Ascii.eqb Bool.eqb]. unfold firstSize.
      change (Js.get_opt (VObj ((VIDEO, cap) :: more)) "video") with cap.
      change (Js.index_key 0) with "0". unfold Js.coalesce. rewrite Hn. reflexivity.
Qed.

(** ** More on the auxiliary configs, the options and the registry *)

Lemma wrapConfig_again config out :
  wrapConfig config = Ok out -> wrapConfig out = Ok out.
Proof.
  unfold wrapConfig. intros H. inv_bind H. rename a into ks.
  destruct (existsb outside_config_igb ks) eqn:E; injection H as <-.
  - reflexivity.
  - rewrite Ha. simpl. now rewrite E.
Qed.

Lemma mapM_wrapConfig_again cs out :
  mapM wrapConfig cs = Ok out -> mapM wrapConfig out = Ok out.
Proof.
  revert out. induction cs as [| c cs IH]; simpl; intros out H.
  - now injection H as <-.
  - inv_bind H. inv_bind H. injection H as <-. simpl.
    now rewrite (wrapConfig_again _ _ Ha), (IH _ Ha0).
Qed.

(** X12. Normalizing is idempotent: what [wrap] returns, [wrap] leaves as
    it is.  A generator's output can be fed to a PAAPI definition again
    without gaining a second [config] layer. *)
Theorem wrap_is_idempotent (raw v : value) :
  wrap raw = Ok v -> wrap v = Ok v.
Proof.
  unfold wrap. intros H.
  destruct raw; try discriminate H; simpl in H.
  - now injection H as <-.
  - inv_bind H. injection H as <-. now rewrite (mapM_wrapConfig_again _ _ Ha).
Qed.

Lemma assign_lookup k ps :
  NoDup (map fst ps) ->
  forall target,
    Js.lookup k (fold_left (fun acc kv => Js.set (fst kv) (snd kv) acc) ps target)
    = match Js.lookup k ps with
      | Some v => Some v
      | None => Js.lookup k target
      end.
Proof.
  induction ps as [| [k0 v0] ps IH]; simpl; intros Hnd target; [reflexivity |].
  inversion Hnd as [| ? ? Hnotin Hnd']. subst. rewrite (IH Hnd').
  destruct (String.eqb k k0) eqn:E.
  - apply String.eqb_eq in E. subst k0.
    rewrite (lookup_not_in _ _ Hnotin). apply lookup_set_same.
  - destruct (Js.lookup k ps); [reflexivity |].
    apply lookup_set_other. now apply String.eqb_neq.
Qed.

Lemma rule_options_of ruleDef ruleNo r logged opts :
  rule ruleDef ruleNo = Ok (r, logged) ->
  Js.get ruleDef "options" = Ok opts ->
  rule_options r = Js.assign DEFAULT_RULE_OPTIONS opts.
Proof.
  intros H Ho. unfold rule in H. inv_bind H. inv_bind H. rewrite Ho in H. simpl in H.
  inv_bind H.
  destruct (matcher a ruleNo) as [m l1]. destruct (replacer a0 ruleNo) as [rep l2].
  destruct (paapiReplacer (Js.or a1 (VArr [])) ruleNo) as [pa l3].
  injection H as <- _. reflexivity.
Qed.

(** X13. The options of a compiled rule are the defaults overlaid with the
    options of the definition: without options (or with [null]) they are
    [{delay: 0}]; with an options object, each of its properties is taken
    as given and [delay] is [0] unless the object sets it. *)
Theorem rule_options_overlay_the_defaults
    (ruleDef : value) (ruleNo : nat) (r : Rule) (logged : list log_entry) (opts : value) :
  rule ruleDef ruleNo = Ok (r, logged) ->
  Js.get ruleDef "options" = Ok opts ->
  (Js.nullish opts = true -> rule_options r = [("delay", VNum 0)])
  /\ (forall ps,
         opts = VObj ps -> NoDup (map fst ps) ->
         (forall k v, Js.lookup k ps = Some v -> Js.lookup k (rule_options r) = Some v)
         /\ (Js.lookup "delay" ps = None -> field "delay" (rule_options r) = VNum 0)
         /\ (forall k, k <> "delay" -> Js.lookup k ps = None ->
                       Js.lookup k (rule_options r) = None)).
Proof.
  intros H Ho. rewrite (rule_options_of _ _ _ _ _ H Ho). split.
  - intros Hn. destruct opts; try discriminate Hn; reflexivity.
  - intros ps -> Hnd. unfold Js.assign, field. simpl Js.own_props. cbv iota.
    split; [| split].
    + intros k v Hk. now rewrite (assign_lookup k ps Hnd), Hk.
    + intros Hk. now rewrite (assign_lookup "delay" ps Hnd), Hk.
    + intros k Hne Hk. rewrite (assign_lookup k ps Hnd), Hk. simpl.
      destruct (String.eqb k "delay") eqn:E; [| reflexivity].
      apply String.eqb_eq in E. contradiction.
Qed.

Lemma rule_returns ruleDef ruleNo :
  Js.nullish ruleDef = false -> exists r logged, rule ruleDef ruleNo = Ok (r, logged).
Proof.
  intros N. unfold rule. rewrite !(get_on_object _ _ N). cbn [bind].
  destruct (matcher _ ruleNo) as [m l1]. destruct (replacer _ ruleNo) as [rep l2].
  destruct (paapiReplacer _ ruleNo) as [pa l3]. eauto.
Qed.

Lemma rule_throws ruleDef ruleNo :
  Js.nullish ruleDef = true -> rule ruleDef ruleNo = Throw TypeError.
Proof. intros N. unfold rule. now rewrite (get_on_nullish _ _ N). Qed.

Lemma rule_numbered ruleDef ruleNo r logged :
  rule ruleDef ruleNo = Ok (r, logged) ->
  rule_no r = ruleNo
  /\ Forall (fun entry => exists what, entry = LogError what ruleNo) logged.
Proof.
  intros H. unfold rule in H. inv_bind H. inv_bind H. inv_bind H. inv_bind H.
  assert (H1 : Forall (fun entry => exists what, entry = LogError what ruleNo)
                 (snd (matcher a ruleNo))).
  { unfold matcher. destruct a; simpl; repeat constructor; eauto. }
  assert (H2 : Forall (fun entry => exists what, entry = LogError what ruleNo)
                 (snd (replacer a0 ruleNo))).
  { unfold replacer, overrideOf, Js.or.
    destruct a0; simpl; repeat constructor; eauto.
    - destruct b; simpl; repeat constructor; eauto.
    - destruct (negb (Qeq_bool q 0)); simpl; repeat constructor; eauto.
    - destruct (negb (String.eqb s "")); simpl; repeat constructor; eauto. }
  assert (H3 : Forall (fun entry => exists what, entry = LogError what ruleNo)
                 (snd (paapiReplacer (Js.or a2 (VArr [])) ruleNo))).
  { unfold paapiReplacer. destruct (Js.or a2 (VArr [])); simpl; repeat constructor; eauto. }
  destruct (matcher a ruleNo) as [m l1]. destruct (replacer a0 ruleNo) as [rep l2].
  destruct (paapiReplacer (Js.or a2 (VArr [])) ruleNo) as [pa l3].
  injection H as <- <-. simpl in *. split; [reflexivity |].
  apply Forall_app. split; [exact H1 | apply Forall_app; split; assumption].
Qed.

Lemma rules_from_numbered ruleDefs :
  forall i rules logged,
    rules_from i ruleDefs = Ok (rules, logged) ->
    map rule_no rules = seq (i + 1) (List.length ruleDefs)
    /\ Forall (fun entry => exists what no,
                   entry = LogError what no /\ i < no <= i + List.length ruleDefs) logged.
Proof.
  induction ruleDefs as [| d ds IH]; simpl; intros i rules logged H.
  - injection H as <- <-. split; constructor.
  - inv_bind H. inv_bind H. injection H as <- <-.
    destruct a as [r l], a0 as [rs ls]. simpl.
    destruct (rule_numbered _ _ _ _ Ha) as (Hno & Hl).
    destruct (IH _ _ _ Ha0) as (Hnos & Hls).
    split.
    + rewrite Hno, Hnos. simpl. now rewrite Nat.add_1_r.
    + apply Forall_app. split.
      * eapply Forall_impl; [| exact Hl]. intros e (what & ->).
        exists what, (i + 1). split; [reflexivity | lia].
      * eapply Forall_impl; [| exact Hls]. intros e (what & no & -> & Hb).
        exists what, no. split; [reflexivity | lia].
Qed.

Lemma rules_from_returns ruleDefs :
  Forall (fun d => Js.nullish d = false) ruleDefs ->
  forall i, exists rules logged, rules_from i ruleDefs = Ok (rules, logged).
Proof.
  induction 1 as [| d ds Hd _ IH]; intros i; simpl.
  - eauto.
  - destruct (rule_returns d (i + 1) Hd) as (r & l & ->).
    destruct (IH (S i)) as (rs & ls & ->). simpl. eauto.
Qed.

Lemma rules_from_throws ruleDefs :
  forall i, Exists (fun d => Js.nullish d = true) ruleDefs ->
            rules_from i ruleDefs = Throw TypeError.
Proof.
  induction ruleDefs as [| d ds IH]; intros i H; [inversion H |].
  simpl. destruct (Js.nullish d) eqn:N.
  - now rewrite (rule_throws _ _ N).
  - destruct (rule_returns d (i + 1) N) as (r & l & ->). simpl.
    inversion H as [? ? Hd | ? ? Hds]; subst; [congruence |].
    now rewrite (IH (S i) Hds).
Qed.

(** X14. [updateConfig] on a configuration whose [intercept] is an array of
    rule definitions numbers the compiled rules 1, 2, ... in the order of
    the definitions, one rule per definition, and every logged definition
    error names one of these numbers.  It throws a [TypeError] instead
    when one of the definitions is [null] or [undefined], and only then. *)
Theorem updateConfig_numbers_the_rules (config : value) (ruleDefs : list value) :
  Js.get config "intercept" = Ok (VArr ruleDefs) ->
  (forall rules logged,
      updateConfig config = Ok (rules, logged) ->
      map rule_no rules = seq 1 (List.length ruleDefs)
      /\ Forall (fun entry => exists what no,
                     entry = LogError what no /\ 1 <= no <= List.length ruleDefs) logged)
  /\ (Forall (fun d => Js.nullish d = false) ruleDefs ->
      exists rules logged, updateConfig config = Ok (rules, logged))
  /\ (Exists (fun d => Js.nullish d = true) ruleDefs ->
      updateConfig config = Throw TypeError).
Proof.
  intros Hc. unfold updateConfig. rewrite Hc. simpl.
  split; [| split].
  - intros rules logged H. destruct (rules_from_numbered _ _ _ _ H) as (Hno & Hl).
    split; [exact Hno |]. eapply Forall_impl; [| exact Hl].
    intros e (what & no & -> & Hb). exists what, no. split; [reflexivity | lia].
  - intros Hall. apply rules_from_returns. exact Hall.
  - apply rules_from_throws.
Qed.

(** ** More on intercept *)

Lemma schedule_bids bidRequest matched :
  forall set,
    mapM (schedule bidRequest) matched = Ok set ->
    map delivered_bid (map fst set) = map m_bid matched
    /\ List.length set = List.length matched.
Proof.
  induction matched as [| m ms IH]; simpl; intros set H.
  - injection H as <-. split; reflexivity.
  - inv_bind H. inv_bind H. injection H as <-.
    destruct (IH _ Ha0) as (Hb & Hl). simpl. rewrite Hb, Hl.
    unfold schedule in Ha. inv_bind Ha. inv_bind Ha. injection Ha as <-.
    split; reflexivity.
Qed.

Lemma setBids_frame bidRequest0 remainder cloned k :
  setBids bidRequest0 remainder = Ok cloned ->
  k <> "bids" -> Js.get cloned k = Js.get bidRequest0 k.
Proof.
  intros H Hk. destruct bidRequest0; try discriminate H; injection H as <-;
    try reflexivity.
  unfold Js.get. simpl. now rewrite lookup_set_other.
Qed.

(** X15. When some bid of the batch matches a rule and [intercept] returns,
    the bids it returns are the bids no rule matches, in input order; the
    request it returns is the request given with [bids] set to these bids
    and every other property as it was; the delivery closures will see that
    returned request; and one timer and one log line have been set per
    matched bid, in input order, the countdown starting at their number. *)
Theorem intercept_hands_back_the_unmatched
    (rules : list Rule) (bids0 bidRequest0 : value) (bs : list value)
    (out : Outcome) (sched : Scheduled) :
  bidsOrDefault bids0 bidRequest0 = Ok (VArr bs) ->
  existsb (selected rules bidRequest0) bs = true ->
  intercept rules bids0 bidRequest0 = Ok (out, sched) ->
  bids out = VArr (filter (fun b => negb (selected rules bidRequest0 b)) bs)
  /\ (forall ps, bidRequest0 = VObj ps ->
                 bidRequest out = VObj (Js.set "bids" (bids out) ps))
  /\ (forall k, k <> "bids" -> Js.get (bidRequest out) k = Js.get bidRequest0 k)
  /\ captured sched = bidRequest out
  /\ map delivered_bid (timers sched) = filter (selected rules bidRequest0) bs
  /\ List.length (logs sched) = List.length (timers sched)
  /\ numRequiredCalls sched = Z.of_nat (List.length (timers sched)).
Proof.
  intros Hbids Hsome H. rewrite intercept_unfold in H. rewrite Hbids in H. cbn [bind] in H.
  destruct (matchAll rules (VArr bs) bidRequest0) as [[matched remainder] | e] eqn:Hall;
    [| discriminate H].
  cbn [bind] in H.
  destruct (matchAll_outcome _ _ _ _ _ Hall) as (Hm & Hr & _).
  assert (Hpos : (0 <? List.length matched)%nat = true).
  { apply Nat.ltb_lt. rewrite <- (length_map m_bid), Hm.
    apply existsb_exists in Hsome. destruct Hsome as (b & Hb & Hsel).
    assert (Hin : In b (filter (selected rules bidRequest0) bs)) by (apply filter_In; auto).
    destruct (filter (selected rules bidRequest0) bs); [destruct Hin | simpl; lia]. }
  rewrite Hpos in H. inv_bind H. rename a into set. inv_bind H. rename a into cloned.
  injection H as <- <-. cbn [bids bidRequest captured timers logs numRequiredCalls].
  destruct (schedule_bids _ _ _ Ha) as (Hdel & Hlen).
  unfold deepClone in Ha0.
  split; [now rewrite Hr | split; [| split; [| split; [reflexivity | split; [| split]]]]].
  - intros ps ->. simpl in Ha0. now injection Ha0 as <-.
  - intros k Hk. eapply setBids_frame; eauto.
  - now rewrite Hdel.
  - now rewrite !length_map.
  - now rewrite length_map, Hlen.
Qed.

Lemma matchAll_no_rules bidRequest bs :
  forall acc, foldM (matchOne [] bidRequest) bs acc = Ok (fst acc, snd acc ++ bs).
Proof.
  induction bs as [| b bs IH]; intros [ms rs]; simpl.
  - now rewrite app_nil_r.
  - rewrite IH. simpl. now rewrite <- app_assoc.
Qed.

(** X16. Without rules nothing is intercepted.  A configuration without
    [intercept] (or with a falsy one) leaves the interceptor without
    rules and logs nothing; and with no rules, [intercept] returns every
    batch and request as given and sets the one timer that calls
    [done]. *)
Theorem no_rules_no_interception :
  (forall config,
      Js.nullish config = false ->
      Js.truthy (Js.get_opt config "intercept") = false ->
      updateConfig config = Ok ([], []))
  /\ (forall bids0 bidRequest0 bs,
         bidsOrDefault bids0 bidRequest0 = Ok (VArr bs) ->
         intercept [] bids0 bidRequest0
         = Ok ({| bids := VArr bs; bidRequest := bidRequest0 |},
               {| timers := [ {| t_task := Done; t_delay := VNum 0 |} ];
                  numRequiredCalls := 0;
                  captured := bidRequest0;
                  logs := [] |})).
Proof.
  split.
  - intros config N F. unfold updateConfig. rewrite (get_on_object _ _ N). cbn [bind].
    unfold Js.or. now rewrite F.
  - intros bids0 bidRequest0 bs Hbids. rewrite intercept_unfold. rewrite Hbids. cbn [bind].
    unfold matchAll. rewrite matchAll_no_rules. reflexivity.
Qed.

End Interceptor.

(** * serializeConfig *)

Section SerializationProperties.

Variable hasNonSerializableProperty : value -> bool.
Variable deepAccess : value -> string -> value.

Lemma filter_from_kept ruleDefs :
  forall i,
    fst (filter_from hasNonSerializableProperty deepAccess i ruleDefs)
    = filter (fun d => negb (hasNonSerializableProperty d)) ruleDefs.
Proof.
  induction ruleDefs as [| d ds IH]; intros i; simpl; [reflexivity |].
  specialize (IH (S i)).
  destruct (filter_from hasNonSerializableProperty deepAccess (S i) ds) as [kept ws].
  simpl in *. rewrite IH. reflexivity.
Qed.

Lemma filter_from_warnings ruleDefs :
  forall i n d,
    In (LogWarn n d) (snd (filter_from hasNonSerializableProperty deepAccess i ruleDefs))
    <-> exists j,
        n = i + j + 1
        /\ nth_error ruleDefs j = Some d
        /\ hasNonSerializableProperty d = true
        /\ Js.truthy (deepAccess d "options.suppressWarnings") = false.
Proof.
  induction ruleDefs as [| d0 ds IH]; intros i n d.
  - simpl. split; [intros [] | intros (j & _ & H & _); destruct j; discriminate H].
  - simpl. specialize (IH (S i) n d).
    destruct (filter_from hasNonSerializableProperty deepAccess (S i) ds) as [kept ws].
    simpl in *. rewrite in_app_iff, IH. split.
    + intros [Hhere | (j & -> & Hj & Hd)].
      * destruct (hasNonSerializableProperty d0) eqn:E1; simpl in Hhere; [| destruct Hhere].
        destruct (Js.truthy (deepAccess d0 "options.suppressWarnings")) eqn:E2;
          simpl in Hhere; [destruct Hhere |].
        destruct Hhere as [Hw | []]. injection Hw as <- <-.
        exists 0. repeat split; auto; lia.
      * exists (S j). repeat split; try tauto; lia.
    + intros (j & -> & Hj & Hd1 & Hd2). destruct j as [| j]; simpl in Hj.
      * injection Hj as ->. left. rewrite Hd1, Hd2. simpl. left. f_equal. lia.
      * right. exists j. repeat split; auto; lia.
Qed.

Lemma filter_from_count ruleDefs :
  forall i,
    List.length (snd (filter_from hasNonSerializableProperty deepAccess i ruleDefs))
    = List.length
        (filter (fun d => hasNonSerializableProperty d
                          && negb (Js.truthy (deepAccess d "options.suppressWarnings")))
           ruleDefs).
Proof.
  induction ruleDefs as [| d ds IH]; intros i; simpl; [reflexivity |].
  specialize (IH (S i)).
  destruct (filter_from hasNonSerializableProperty deepAccess (S i) ds) as [kept ws].
  simpl in *. rewrite length_app, IH, negb_involutive.
  destruct (hasNonSerializableProperty d
            && negb (Js.truthy (deepAccess d "options.suppressWarnings"))); reflexivity.
Qed.

Lemma filter_from_silent ruleDefs :
  Forall (fun d => hasNonSerializableProperty d = false) ruleDefs ->
  forall i, filter_from hasNonSerializableProperty deepAccess i ruleDefs = (ruleDefs, []).
Proof.
  induction 1 as [| d ds Hd _ IH]; intros i; simpl; [reflexivity |].
  now rewrite (IH (S i)), Hd.
Qed.

(** X17. [serializeConfig] keeps exactly the rule definitions without
    non-serializable properties, in their order, and warns once for each
    definition it drops that does not suppress warnings, under the
    definition's position counted from one; a definition that is kept or
    that sets [options.suppressWarnings] is not warned about. *)
Theorem serializeConfig_keeps_the_serializable (ruleDefs : list value) :
  exists kept warnings,
    serializeConfig hasNonSerializableProperty deepAccess (VArr ruleDefs)
    = Ok (kept, warnings)
    /\ kept = filter (fun d => negb (hasNonSerializableProperty d)) ruleDefs
    /\ (forall n d,
          In (LogWarn n d) warnings
          <-> exists j,
              n = j + 1
              /\ nth_error ruleDefs j = Some d
              /\ hasNonSerializableProperty d = true
              /\ Js.truthy (deepAccess d "options.suppressWarnings") = false)
    /\ List.length warnings
       = List.length
           (filter (fun d => hasNonSerializableProperty d
                             && negb (Js.truthy (deepAccess d "options.suppressWarnings")))
              ruleDefs).
Proof.
  simpl.
  destruct (filter_from hasNonSerializableProperty deepAccess 0 ruleDefs)
    as [kept warnings] eqn:E.
  exists kept, warnings. split; [reflexivity | split; [| split]].
  - rewrite <- (filter_from_kept ruleDefs 0), E. reflexivity.
  - intros n d. pose proof (filter_from_warnings ruleDefs 0 n d) as H.
    rewrite E in H. exact H.
  - pose proof (filter_from_count ruleDefs 0) as H. rewrite E in H. exact H.
Qed.

(** X18. Serializing is idempotent and then silent: what [serializeConfig]
    returns, it returns again unchanged and without a warning. *)
Theorem serializeConfig_is_idempotent
    (ruleDefs : value) (kept : list value) (warnings : list warning) :
  serializeConfig hasNonSerializableProperty deepAccess ruleDefs = Ok (kept, warnings) ->
  serializeConfig hasNonSerializableProperty deepAccess (VArr kept) = Ok (kept, []).
Proof.
  intros H. destruct ruleDefs; try discriminate H. simpl in H. injection H as H.
  assert (Hk : kept = filter (fun d => negb (hasNonSerializableProperty d)) xs)
    by (rewrite <- (filter_from_kept xs 0), H; reflexivity).
  simpl. rewrite filter_from_silent; [reflexivity |].
  rewrite Hk. apply Forall_forall. intros d Hd. apply filter_In in Hd.
  destruct Hd as (_ & Hd). now apply negb_true_iff in Hd.
Qed.

End SerializationProperties.

(** * The properties on the sample environment *)

Example defaults_of_banner_bid :
  responseDefaults Sample.bannerBid
  = Ok (baseResponse (VStr "b1")
        ++ [("mediaType", VStr "banner"); ("width", VNum 728); ("height", VNum 90)]).
Proof. reflexivity. Qed.

Example defaults_of_plain_bid :
  responseDefaults Sample.plainBid
  = Ok (baseResponse (VStr "b2")
        ++ [("mediaType", VStr "banner"); ("width", VNum 300); ("height", VNum 250)]).
Proof. reflexivity. Qed.

Example defaults_of_typed_bid :
  responseDefaults Sample.typedBid = Ok (baseResponse (VStr "b4")).
Proof. reflexivity. Qed.

Example null_bid_throws : responseDefaults VNull = Throw TypeError.
Proof. reflexivity. Qed.

Lemma resolvers_augment : augments Sample.responseResolvers.
Proof.
  intros mediaType resolver bid response k v Hres Hk.
  unfold Sample.responseResolvers in Hres.
  destruct (Js.strict_eq mediaType (VStr BANNER)); [| discriminate Hres].
  injection Hres as <-. unfold Sample.bannerResolver.
  destruct (Js.has_key "ad" response || Js.has_key "adUrl" response) eqn:E; [exact Hk |].
  apply orb_false_iff in E. destruct E as (Had & _).
  rewrite lookup_set_other; [exact Hk |].
  intros ->. unfold Js.has_key in Had. rewrite Hk in Had. discriminate Had.
Defined.

(** C2. Two rule sets with a malformed rule on which [intercept] throws:
    a truthy [paapi] that is neither an array nor a function is logged and
    leaves the rule without a generator, which [intercept] calls all the
    same when the rule matches; and [when: null] passes the [typeof] test
    of [matcher] unlogged, whose predicate then asks [null] for its
    entries.  A malformed [then] and a [when] that is not of object type
    are logged and harmless. *)
Theorem intercept_throws_on_malformed_rule :
  (exists rules,
      updateConfig Sample.call Sample.exec Sample.responseResolvers
        (Sample.config [Sample.malformedPaapi])
      = Ok (rules, [LogError "paapi" 1])
      /\ intercept rules VUndef (Sample.request [Sample.plainBid]) = Throw TypeError)
  /\ (exists rules,
         updateConfig Sample.call Sample.exec Sample.responseResolvers
           (Sample.config [Sample.nullWhen])
         = Ok (rules, [])
         /\ intercept rules VUndef (Sample.request [Sample.plainBid]) = Throw TypeError)
  /\ (exists rules out sched,
         updateConfig Sample.call Sample.exec Sample.responseResolvers
           (Sample.config [Sample.malformedWhenThen; Sample.malformedThen])
         = Ok (rules, [LogError "when" 1; LogError "then" 1; LogError "then" 2])
         /\ intercept rules VUndef (Sample.request [Sample.plainBid]) = Ok (out, sched)
         /\ bids out = VArr []).
Proof.
  split; [| split].
  - eexists. split; reflexivity.
  - eexists. split; reflexivity.
  - eexists. eexists. eexists. split; [reflexivity | split; reflexivity].
Qed.

(** C1 fails on three bids.  For a rule without [then], the response
    synthesized for [{bidId: 'b3', mediaTypes: {native: {}}}] is an object
    that has neither [width] nor [height]: no size is resolved for a native
    bid.  Nor is one for [{bidId: 'b4', mediaType: 'banner'}], whose
    defaults carry no media type, and for the banner bid
    [{bidId: 'b5', mediaTypes: {banner: {sizes: [300, 250]}}}], whose first
    size is a number. *)
Lemma response_without_size :
  (exists response,
      fst (replacer Sample.call Sample.responseResolvers VUndef 1)
        Sample.nativeBid [Sample.request [Sample.nativeBid]]
      = Ok (VObj response)
      /\ Js.has_key "requestId" response = true
      /\ Js.has_key "width" response = false
      /\ Js.has_key "height" response = false)
  /\ (exists response,
         fst (replacer Sample.call Sample.responseResolvers VUndef 1)
           Sample.typedBid [Sample.request [Sample.typedBid]]
         = Ok (VObj response)
         /\ Js.has_key "mediaType" response = false
         /\ Js.has_key "width" response = false
         /\ Js.has_key "height" response = false)
  /\ (exists response,
         fst (replacer Sample.call Sample.responseResolvers VUndef 1)
           Sample.flatSizesBid [Sample.request [Sample.flatSizesBid]]
         = Ok (VObj response)
         /\ Js.lookup "mediaType" response = Some (VStr BANNER)
         /\ Js.has_key "width" response = false
         /\ Js.has_key "height" response = false).
Proof.
  split; [| split]; eexists; (split; [reflexivity | repeat split]).
Qed.

(** A bid without capabilities and the template [{cpm: () => 9.99}]: the
    response has the four fields. *)
Lemma replace_null_or_defaulted_witness :
  augments Sample.responseResolvers
  /\ sized Sample.plainBid
  /\ exists response,
      fst (replacer Sample.call Sample.responseResolvers (VObj [("cpm", VFun 0)]) 1)
        Sample.plainBid []
      = Ok (VObj response)
      /\ Js.has_key "requestId" response = true
      /\ Js.lookup "isDebug" response = Some (VBool true)
      /\ Js.has_key "width" response = true
      /\ Js.has_key "height" response = true.
Proof.
  assert (Hs : sized Sample.plainBid).
  { split; [reflexivity | left; split; reflexivity]. }
  split; [exact resolvers_augment | split; [exact Hs |]].
  destruct (replace_null_or_defaulted Sample.call Sample.responseResolvers
              (VObj [("cpm", VFun 0)]) 1 Sample.plainBid [] resolvers_augment)
    as (_ & H & _).
  destruct (H _ eq_refl) as [(Hn & _) | (_ & response & Hv & Hid & Hdbg & Hsz)].
  - discriminate Hn.
  - exists response. destruct (Hsz Hs) as (Hw & Hh).
    split; [rewrite <- Hv; reflexivity | auto].
Defined.

(** Rules A, "only b2" and "catch all" on the bid b2: the second rule is
    returned, though the third matches as well. *)
Lemma match_first_match_wins_witness :
  let rules := rulesAfter Sample.call Sample.exec Sample.responseResolvers
                 (Sample.config [Sample.ruleA; Sample.onlyB2; Sample.catchAll]) in
  exists r pre post,
    match_ rules Sample.plainBid [] = Ok (Some r)
    /\ rule_no r = 2
    /\ rules = pre ++ r :: post
    /\ Forall (rejects Sample.plainBid []) pre
    /\ accepts Sample.plainBid [] r.
Proof.
  intros rules.
  assert (E : exists r, match_ rules Sample.plainBid [] = Ok (Some r) /\ rule_no r = 2)
    by (eexists; split; reflexivity).
  destruct E as (r & E & Hno).
  destruct (proj1 (proj1 (match_first_match_wins rules Sample.plainBid []) r) E)
    as (pre & post & Hsplit & Hpre & Hr).
  exists r, pre, post. auto.
Defined.

(** The rule "only b2" splits the batch [b1, b2, b3] into [b2] and
    [b1, b3]. *)
Lemma matchAll_partitions_witness :
  let rules := rulesAfter Sample.call Sample.exec Sample.responseResolvers
                 (Sample.config [Sample.onlyB2]) in
  let batch := [Sample.bannerBid; Sample.plainBid; Sample.nativeBid] in
  exists matched remainder,
    matchAll rules (VArr batch) (Sample.request batch) = Ok (matched, remainder)
    /\ map m_bid matched = [Sample.plainBid]
    /\ remainder = [Sample.bannerBid; Sample.nativeBid]
    /\ List.length matched + List.length remainder = List.length batch.
Proof.
  intros rules batch.
  assert (E : exists matched remainder,
             matchAll rules (VArr batch) (Sample.request batch) = Ok (matched, remainder)
             /\ map m_bid matched = [Sample.plainBid]
             /\ remainder = [Sample.bannerBid; Sample.nativeBid])
    by (eexists; eexists; split; [reflexivity | split; reflexivity]).
  destruct E as (matched & remainder & E & Hm & Hr).
  destruct (proj1 (matchAll_partitions rules batch (Sample.request batch)) _ _ E)
    as (Hlen & _).
  exists matched, remainder. auto.
Defined.

(** The rule [{when: {}}] matches every candidate, [null] included. *)
Lemma empty_when_matches_everything_witness :
  exists r logged,
    rule Sample.call Sample.exec Sample.responseResolvers Sample.catchAll 1 = Ok (r, logged)
    /\ (forall candidate args, rule_match r candidate args = Ok (VBool true))
    /\ match_ [r] VNull [] = Ok (Some r).
Proof.
  assert (E : exists r logged,
             rule Sample.call Sample.exec Sample.responseResolvers Sample.catchAll 1
             = Ok (r, logged))
    by (eexists; eexists; reflexivity).
  destruct E as (r & logged & E).
  destruct (empty_when_matches_everything Sample.call Sample.exec Sample.responseResolvers
              Sample.catchAll 1 r logged eq_refl E) as (_ & _ & Hall & Hfirst).
  exists r, logged. split; [exact E | split; [exact Hall |]].
  apply (Hfirst [] [] VNull []). constructor.
Defined.

(** The generator compiled from the sample PAAPI function wraps its first
    entry and passes the other two. *)
Lemma paapi_generator_normalizes_witness :
  exists generator cs out,
    paapiReplacer Sample.call (VFun 1) 1 = (Some generator, [])
    /\ Sample.call 1 [Sample.plainBid] = Ok (VArr cs)
    /\ generator [Sample.plainBid] = Ok (VArr out)
    /\ out = [ VObj [("config", VObj [("seller", VStr "x")])];
               VObj [("config", VObj [("seller", VStr "y")]); ("igb", VArr [])];
               VObj [] ]
    /\ Forall2 normalized cs out.
Proof.
  destruct (paapi_generator_normalizes Sample.call Sample.responseResolvers (VFun 1) 1
              (or_intror eq_refl)) as (g & Hg & Hspec).
  destruct (Hspec [Sample.plainBid] _ eq_refl) as (_ & Hret).
  destruct (Hret _ eq_refl) as (out & Hout & HF); [repeat constructor |].
  exists g. eexists. exists out.
  split; [exact Hg | split; [reflexivity | split; [exact Hout | split; [| exact HF]]]].
  injection Hg as <-. injection Hout as <-. reflexivity.
Defined.

(** With rule A and a rule whose [then] throws on the bid b2, the batch
    [b1, b2] has two matches; the call throws, the timer of b1 is set and
    fires, and [done] is never called. *)
Lemma done_not_called_after_a_throw :
  let config := Sample.config [Sample.ruleA; Sample.throwingB] in
  let rules := rulesAfter Sample.call Sample.exec Sample.responseResolvers config in
  let request := Sample.request [Sample.bannerBid; Sample.plainBid] in
  exists matched remainder sched responseA,
    matchAll rules (VArr [Sample.bannerBid; Sample.plainBid]) request
    = Ok (matched, remainder)
    /\ List.length matched = 2
    /\ interceptCall rules VUndef request = (sched, Throw (UserThrow (VStr "boom")))
    /\ intercept rules VUndef request = Throw (UserThrow (VStr "boom"))
    /\ forall order,
        Permutation order (timers sched) ->
        trace (run (captured sched) order (start sched))
        = [AddBid responseA Sample.bannerBid]
        /\ count_done (trace (run (captured sched) order (start sched))) = 0.
Proof.
  intros config rules request.
  do 4 eexists.
  split; [reflexivity | split; [reflexivity | split; [reflexivity | split; [reflexivity |]]]].
  intros order Hperm. simpl in Hperm.
  apply Permutation_sym, Permutation_length_1_inv in Hperm. subst order.
  split; reflexivity.
Qed.

(** Rule A with a delay of 100 and rule B with a delay of 10: B's
    [addBid] comes first, A's second, [done] last and once. *)
Lemma done_after_all_scheduled_deliveries_witness :
  let config := Sample.config [Sample.ruleA; Sample.ruleB] in
  let rules := rulesAfter Sample.call Sample.exec Sample.responseResolvers config in
  let request := Sample.request [Sample.bannerBid; Sample.plainBid] in
  exists out sched responseA responseB,
    interceptCall rules VUndef request = (sched, Ok out)
    /\ map t_delay (timers sched) = [VNum 100; VNum 10]
    /\ trace (run (captured sched) (firing_order (timers sched)) (start sched))
       = [AddBid responseB Sample.plainBid; AddBid responseA Sample.bannerBid; DoneCalled]
    /\ forall order,
        Permutation order (timers sched) ->
        trace (run (captured sched) order (start sched))
        = flat_map (side_effects (captured sched)) order ++ [DoneCalled]
        /\ count_done (trace (run (captured sched) order (start sched))) = 1.
Proof.
  intros config rules request.
  assert (E : exists out sched responseA responseB,
             interceptCall rules VUndef request = (sched, Ok out)
             /\ map t_delay (timers sched) = [VNum 100; VNum 10]
             /\ trace (run (captured sched) (firing_order (timers sched)) (start sched))
                = [AddBid responseB Sample.plainBid; AddBid responseA Sample.bannerBid;
                   DoneCalled])
    by (do 4 eexists; split; [reflexivity | split; reflexivity]).
  destruct E as (out & sched & responseA & responseB & E & Hdelay & Htrace).
  assert (M : exists matched remainder,
             matchAll rules (VArr [Sample.bannerBid; Sample.plainBid]) request
             = Ok (matched, remainder) /\ matched <> [])
    by (do 2 eexists; split; [reflexivity | discriminate]).
  destruct M as (matched & remainder & M & Hne).
  destruct (done_after_all_scheduled_deliveries
              Sample.call Sample.exec Sample.responseResolvers
              config rules [] VUndef request (VArr [Sample.bannerBid; Sample.plainBid])
              matched remainder sched (Ok out) eq_refl eq_refl M Hne E)
    as (reached & rest & _ & _ & _ & Hret & _ & Hrun).
  exists out, sched, responseA, responseB.
  split; [exact E | split; [exact Hdelay | split; [exact Htrace |]]].
  intros order Hperm. exact (proj1 (Hrun order Hperm) (Hret out eq_refl)).
Defined.


(** The rule "only b2" on the batch [b1, b3]: batch and request come
    back as they were, and the timer calls [done]. *)
Lemma zero_match_fast_path_witness :
  let rules := rulesAfter Sample.call Sample.exec Sample.responseResolvers
                 (Sample.config [Sample.onlyB2]) in
  let request := Sample.request [Sample.bannerBid; Sample.nativeBid] in
  exists sched,
    intercept rules VUndef request
    = Ok ({| bids := VArr [Sample.bannerBid; Sample.nativeBid]; bidRequest := request |},
          sched)
    /\ timers sched = [ {| t_task := Done; t_delay := VNum 0 |} ]
    /\ trace (start sched) = []
    /\ trace (run (captured sched) (firing_order (timers sched)) (start sched)) = [DoneCalled].
Proof.
  intros rules request.
  destruct (zero_match_fast_path rules VUndef request
              (VArr [Sample.bannerBid; Sample.nativeBid])
              [Sample.bannerBid; Sample.nativeBid] eq_refl eq_refl)
    as (sched & E & _ & _ & _ & Htimers & Hstart & Hrun).
  exists sched. split; [exact E | split; [exact Htimers | split; [exact Hstart |]]].
  apply Hrun. apply firing_order_perm.
Defined.

(** Defaults with [width: 300, height: 250, cpm: 3.5764] and the template
    [{cpm: () => 9.99}]: [cpm] is 9.99, [width] and [height] are the
    defaults'. *)
Lemma template_merge_precedence_witness :
  augments Sample.responseResolvers
  /\ exists response,
      fst (replacer Sample.call Sample.responseResolvers (VObj [("cpm", VFun 0)]) 1)
        Sample.plainBid []
      = Ok (VObj response)
      /\ Js.lookup "cpm" response = Some (VNum 9.99)
      /\ Js.lookup "width" response = Some (VNum 300)
      /\ Js.lookup "height" response = Some (VNum 250).
Proof.
  split; [exact resolvers_augment |].
  assert (D : exists defaults,
             responseDefaults Sample.plainBid = Ok defaults
             /\ Js.lookup "cpm" defaults = Some (VNum 3.5764)
             /\ Js.lookup "width" defaults = Some (VNum 300)
             /\ Js.lookup "height" defaults = Some (VNum 250))
    by (eexists; split; [reflexivity | repeat split]).
  destruct D as (defaults & D & _ & Hw & Hh).
  destruct (template_merge_precedence Sample.call Sample.responseResolvers
              (VObj [("cpm", VFun 0)]) 1 Sample.plainBid [] defaults
              (VObj [("cpm", VNum 9.99)])) as (response & E & _ & Hfields & Hover & Hkeep).
  - discriminate.
  - exact resolvers_augment.
  - exact D.
  - reflexivity.
  - exists response. split; [exact E |].
    assert (Hnd : NoDup (map fst [("cpm", VNum 9.99)])) by (repeat constructor; simpl; tauto).
    split; [| split].
    + apply Hfields; [discriminate |].
      apply (proj1 (Hover _ "cpm" (VNum 9.99) eq_refl Hnd eq_refl)). left. reflexivity.
    + apply Hfields; [discriminate |]. rewrite (Hkeep _ "width" eq_refl eq_refl). exact Hw.
    + apply Hfields; [discriminate |]. rewrite (Hkeep _ "height" eq_refl eq_refl). exact Hh.
Defined.

(** * The further properties on the sample environment *)

(** The matcher [{bidId: 'b2', adUnitCode: undefined}] matches the bid
    [{bidId: 'b2'}]. *)
Lemma scalar_matcher_compares_fields_witness :
  matches Sample.call Sample.exec
    (VObj [("bidId", VStr "b2"); ("adUnitCode", VUndef)]) Sample.plainBid []
  = Ok true.
Proof.
  rewrite (scalar_matcher_compares_fields Sample.call Sample.exec
             [("bidId", VStr "b2"); ("adUnitCode", VUndef)] Sample.plainBid []
             eq_refl eq_refl).
  reflexivity.
Defined.

(** The rule [{when: 7, then: 'oops'}] matches nothing. *)
Lemma malformed_when_disables_rule_witness :
  exists r logged,
    rule Sample.call Sample.exec Sample.responseResolvers Sample.malformedWhenThen 1
    = Ok (r, logged)
    /\ In (LogError "when" 1) logged
    /\ forall candidate args, rule_match r candidate args = Ok (VBool false).
Proof.
  assert (E : exists r logged,
             rule Sample.call Sample.exec Sample.responseResolvers
               Sample.malformedWhenThen 1 = Ok (r, logged))
    by (do 2 eexists; reflexivity).
  destruct E as (r & logged & E).
  destruct (malformed_when_disables_rule Sample.call Sample.exec Sample.responseResolvers
              Sample.malformedWhenThen 1 r logged (VNum 7) E eq_refl eq_refl eq_refl)
    as (Hlog & Hfalse & _).
  exists r, logged. auto.
Defined.


(** [then: 'oops'] gives the defaults alone and one logged error. *)
Lemma non_object_then_gives_defaults_witness :
  (forall bid args,
      fst (replacer Sample.call Sample.responseResolvers (VStr "oops") 1) bid args
      = defaultsOnly Sample.responseResolvers bid)
  /\ snd (replacer Sample.call Sample.responseResolvers (VStr "oops") 1)
     = [LogError "then" 1].
Proof.
  exact (non_object_then_gives_defaults Sample.call Sample.responseResolvers
           (VStr "oops") 1 eq_refl eq_refl).
Defined.

(** A template of literals is copied. *)
Lemma literal_template_is_copied_witness :
  replFn Sample.call Sample.literalThen [Sample.plainBid] = Ok Sample.literalThen.
Proof.
  exact (literal_template_is_copied Sample.call Sample.responseResolvers
           Sample.literalThen [Sample.plainBid] eq_refl (or_intror eq_refl)).
Defined.

(** The template [{cpm: f3}], [f3] throwing: the generator throws what
    [f3] throws on the bid. *)
Lemma then_throws_only_what_its_functions_throw_witness :
  fst (replacer Sample.call Sample.responseResolvers (VObj [("cpm", VFun 3)]) 1)
    Sample.plainBid []
  = Throw (UserThrow (VStr "boom"))
  /\ exists f,
      In f (calledIn (VObj [("cpm", VFun 3)]))
      /\ Sample.call f [Sample.plainBid] = Throw (UserThrow (VStr "boom")).
Proof.
  destruct (then_throws_only_what_its_functions_throw
              Sample.call Sample.responseResolvers (VObj [("cpm", VFun 3)]) 1
              Sample.plainBid [] (UserThrow (VStr "boom")))
    as (Hfun & Hgen & _).
  split.
  - apply Hgen; [discriminate | reflexivity | reflexivity].
  - apply Hfun. reflexivity.
Defined.

(** The banner bid declaring 728 x 90 gets that size. *)
Lemma defaults_take_the_first_declared_size_witness :
  responseDefaults Sample.bannerBid
  = Ok (baseResponse (VStr "b1")
        ++ [("mediaType", VStr "banner"); ("width", VNum 728); ("height", VNum 90)]).
Proof.
  destruct (defaults_take_the_first_declared_size Sample.bannerBid eq_refl eq_refl)
    as (_ & Hbanner & _).
  destruct (Hbanner (VObj [("sizes", VArr [Sample.size 728 90])]) [] eq_refl) as (Hsize & _).
  exact (Hsize [VNum 728; VNum 90] eq_refl).
Defined.

(** Wrapping the sample configs twice is wrapping them once. *)
Lemma wrap_is_idempotent_witness :
  exists v,
    wrap (VArr [VObj [("seller", VStr "x")]; VObj [("igb", VArr [])]; VObj []]) = Ok v
    /\ wrap v = Ok v.
Proof.
  eexists. split; [reflexivity |].
  apply (wrap_is_idempotent
           (VArr [VObj [("seller", VStr "x")]; VObj [("igb", VArr [])]; VObj []])).
  reflexivity.
Defined.

(** Rule A keeps its delay of 100. *)
Lemma rule_options_overlay_the_defaults_witness :
  exists r logged,
    rule Sample.call Sample.exec Sample.responseResolvers Sample.ruleA 1 = Ok (r, logged)
    /\ Js.lookup "delay" (rule_options r) = Some (VNum 100).
Proof.
  assert (E : exists r logged,
             rule Sample.call Sample.exec Sample.responseResolvers Sample.ruleA 1
             = Ok (r, logged))
    by (do 2 eexists; reflexivity).
  destruct E as (r & logged & E).
  destruct (rule_options_overlay_the_defaults Sample.call Sample.exec
              Sample.responseResolvers Sample.ruleA 1 r logged
              (VObj [("delay", VNum 100)]) E eq_refl) as (_ & Hobj).
  assert (Hnd : NoDup (map fst [("delay", VNum 100)]))
    by (constructor; [intros [] | constructor]).
  destruct (Hobj _ eq_refl Hnd) as (Hgiven & _).
  exists r, logged. split; [exact E | apply Hgiven; reflexivity].
Defined.

(** Three definitions give the rules 1, 2 and 3. *)
Lemma updateConfig_numbers_the_rules_witness :
  exists rules logged,
    updateConfig Sample.call Sample.exec Sample.responseResolvers
      (Sample.config [Sample.ruleA; Sample.malformedPaapi; Sample.catchAll])
    = Ok (rules, logged)
    /\ map rule_no rules = [1; 2; 3].
Proof.
  assert (E : exists rules logged,
             updateConfig Sample.call Sample.exec Sample.responseResolvers
               (Sample.config [Sample.ruleA; Sample.malformedPaapi; Sample.catchAll])
             = Ok (rules, logged))
    by (do 2 eexists; reflexivity).
  destruct E as (rules & logged & E).
  destruct (updateConfig_numbers_the_rules Sample.call Sample.exec
              Sample.responseResolvers
              (Sample.config [Sample.ruleA; Sample.malformedPaapi; Sample.catchAll])
              [Sample.ruleA; Sample.malformedPaapi; Sample.catchAll] eq_refl)
    as (Hno & _).
  exists rules, logged. split; [exact E | exact (proj1 (Hno _ _ E))].
Defined.

(** The rule "only b2" takes b2 out of the batch [b1, b2, b3]. *)
Lemma intercept_hands_back_the_unmatched_witness :
  let rules := rulesAfter Sample.call Sample.exec Sample.responseResolvers
                 (Sample.config [Sample.onlyB2]) in
  let batch := [Sample.bannerBid; Sample.plainBid; Sample.nativeBid] in
  exists out sched,
    intercept rules VUndef (Sample.request batch) = Ok (out, sched)
    /\ bids out = VArr [Sample.bannerBid; Sample.nativeBid]
    /\ map delivered_bid (timers sched) = [Sample.plainBid]
    /\ captured sched = bidRequest out.
Proof.
  intros rules batch.
  assert (E : exists out sched,
             intercept rules VUndef (Sample.request batch) = Ok (out, sched))
    by (do 2 eexists; reflexivity).
  destruct E as (out & sched & E).
  destruct (intercept_hands_back_the_unmatched rules VUndef (Sample.request batch) batch
              out sched eq_refl eq_refl E)
    as (Hbids & _ & _ & Hcap & Hdel & _).
  exists out, sched.
  split; [exact E | split; [exact Hbids | split; [exact Hdel | exact Hcap]]].
Defined.

(** Of a plain rule, a rule with a function and one that also suppresses
    warnings, the first is kept and the second warned about; serializing
    the result again changes nothing and warns of nothing. *)
Lemma serializeConfig_is_idempotent_witness :
  serializeConfig Sample.holdsFunction Sample.deepAccess
    (VArr [Sample.ruleA; Sample.functionWhen; Sample.quietFunctionWhen])
  = Ok ([Sample.ruleA], [LogWarn 2 Sample.functionWhen])
  /\ serializeConfig Sample.holdsFunction Sample.deepAccess (VArr [Sample.ruleA])
     = Ok ([Sample.ruleA], []).
Proof.
  split; [reflexivity |].
  apply (serializeConfig_is_idempotent Sample.holdsFunction Sample.deepAccess
           (VArr [Sample.ruleA; Sample.functionWhen; Sample.quietFunctionWhen])
           [Sample.ruleA] [LogWarn 2 Sample.functionWhen]).
  reflexivity.
Defined.
